(** * catalogo-musical: the SQLite store, the catalogue and the player

    A shallow embedding of [Banco_Dados.py], [main.py] and [tocador.py].

    - The store ([BancoDeDadosMusica]) is modelled by explicit state passing
      over the three tables of the schema and the settings of the
      connection.  Every SQL statement of the source is a function on the
      tables that either yields its result or raises [IntegrityError]; a
      statement that raises leaves the tables as they were (SQLite backs a
      failing statement out), so the [commit] after a statement publishes
      that statement and a [rollback] has nothing left to undo.
    - The engine is the one Python's [sqlite3] module links: [PRIMARY KEY],
      [UNIQUE] and [NOT NULL] are always enforced, [FOREIGN KEY] only on a
      connection whose [foreign_keys] pragma is on, and the pragma is off on
      a new connection.
    - Text is [string]; one [ascii] stands for one character.  Text is taken
      free of the NUL character and below the engine's length limits, and
      integers inside SQLite's 64-bit range.  The lines the store prints are
      not modelled.  The handlers of the source for a [sqlite3.Error] other
      than [IntegrityError] (a fault of the storage medium) are kept as
      branches; the model of the engine never raises one.
    - The player runs in a small state-and-exception monad over Python list
      objects held by reference, the console, the random generator and the
      external [mpv] process. *)

From Stdlib Require Import ZArith Ascii String.
From stdpp Require Import base decidable option list strings sorting pretty.

(** ** The schema *)

(** A row of [artistas] and of [generos]: [(id, nome)]. *)
Record LinhaNome := { ln_id : Z; ln_nome : string }.

(** A row of [musicas]: [(id, artista_id, titulo, url, genero_id)]. *)
Record LinhaMusica := {
  lm_id : Z;
  lm_artista_id : Z;
  lm_titulo : string;
  lm_url : string;
  lm_genero_id : Z
}.

(** A table with an [INTEGER PRIMARY KEY AUTOINCREMENT]: its rows in rowid
    order and the largest rowid ever handed out ([sqlite_sequence.seq]). *)
Record Tabela (L : Type) := { linhas : list L; seq : Z }.
Arguments linhas {L} _.
Arguments seq {L} _.

Definition tabela_vazia {L} : Tabela L := {| linhas := []; seq := 0 |}.

(** Settings of one [sqlite3] connection.  [foreign_keys] is the pragma of
    that name: foreign keys are checked only while it is on. *)
Record Conexao := { foreign_keys : bool }.

(** [sqlite3.connect]: a new connection has the engine's default, no
    foreign key enforcement. *)
Definition sqlite3_connect : Conexao := {| foreign_keys := false |}.

Record BancoDeDadosMusica := {
  conexao : Conexao;
  artistas : Tabela LinhaNome;
  generos : Tabela LinhaNome;
  musicas : Tabela LinhaMusica
}.

Definition com_artistas (t : Tabela LinhaNome) (bd : BancoDeDadosMusica) :=
  {| conexao := conexao bd; artistas := t;
     generos := generos bd; musicas := musicas bd |}.

Definition com_generos (t : Tabela LinhaNome) (bd : BancoDeDadosMusica) :=
  {| conexao := conexao bd; artistas := artistas bd;
     generos := t; musicas := musicas bd |}.

Definition com_musicas (t : Tabela LinhaMusica) (bd : BancoDeDadosMusica) :=
  {| conexao := conexao bd; artistas := artistas bd;
     generos := generos bd; musicas := t |}.

(** [conectar]: opens the connection and issues no pragma. *)
Definition conectar : Conexao := sqlite3_connect.

(** [criar_tabelas] on a new database file: [CREATE TABLE IF NOT EXISTS]
    leaves three empty tables. *)
Definition criar_tabelas (c : Conexao) : BancoDeDadosMusica :=
  {| conexao := c; artistas := tabela_vazia;
     generos := tabela_vazia; musicas := tabela_vazia |}.

(** [BancoDeDadosMusica.__init__] on a new file. *)
Definition banco_novo : BancoDeDadosMusica := criar_tabelas conectar.

(** ** The engine: statements *)

Inductive sqlite3_Error := IntegrityError | OperationalError.

Inductive Execucao (A : Type) :=
  | Executado (a : A)
  | Falha (e : sqlite3_Error).
Arguments Executado {A} _.
Arguments Falha {A} _.

Definition ids_nome (t : Tabela LinhaNome) : list Z := ln_id <$> linhas t.
Definition nomes (t : Tabela LinhaNome) : list string := ln_nome <$> linhas t.
Definition ids_musica (t : Tabela LinhaMusica) : list Z := lm_id <$> linhas t.
Definition urls (t : Tabela LinhaMusica) : list string := lm_url <$> linhas t.

Definition maior (ids : list Z) : Z := foldr Z.max 0%Z ids.

(** The rowid an AUTOINCREMENT table gives its next row: one more than the
    largest rowid the table has ever held. *)
Definition proximo_rowid (ids : list Z) (s : Z) : Z := (Z.max s (maior ids) + 1)%Z.

(** [INSERT INTO artistas (nome) VALUES (?)] (and the same on [generos]):
    [nome] is [UNIQUE].  The result carries [lastrowid]. *)
Definition insert_nome (nome : string) (t : Tabela LinhaNome)
  : Execucao (Z * Tabela LinhaNome) :=
  if decide (nome ∈ nomes t) then Falha IntegrityError
  else
    let i := proximo_rowid (ids_nome t) (seq t) in
    Executado (i, {| linhas := linhas t ++ [{| ln_id := i; ln_nome := nome |}];
                     seq := i |}).

(** [SELECT id FROM artistas WHERE nome = ?]. *)
Definition select_id_por_nome (nome : string) (t : Tabela LinhaNome) : list Z :=
  ln_id <$> filter (λ r, ln_nome r = nome) (linhas t).

(** [SELECT * FROM artistas WHERE id = ?] and [... WHERE nome = ?]. *)
Definition select_nome_por_id (i : Z) (t : Tabela LinhaNome) : list LinhaNome :=
  filter (λ r, ln_id r = i) (linhas t).
Definition select_nome_por_nome (nome : string) (t : Tabela LinhaNome)
  : list LinhaNome :=
  filter (λ r, ln_nome r = nome) (linhas t).

(** The foreign keys of a [musicas] row both have a parent row. *)
Definition pais_existem (bd : BancoDeDadosMusica) (artista_id genero_id : Z) : bool :=
  bool_decide (artista_id ∈ ids_nome (artistas bd))
  && bool_decide (genero_id ∈ ids_nome (generos bd)).

(** [INSERT INTO musicas (artista_id, titulo, url, genero_id) VALUES (?,?,?,?)]:
    [url] is [UNIQUE]; the two [FOREIGN KEY] clauses are checked when the
    connection has [foreign_keys] on. *)
Definition insert_musica (artista_id : Z) (titulo url : string) (genero_id : Z)
    (bd : BancoDeDadosMusica) : Execucao (Z * Tabela LinhaMusica) :=
  let t := musicas bd in
  if decide (url ∈ urls t) then Falha IntegrityError
  else if foreign_keys (conexao bd) && negb (pais_existem bd artista_id genero_id)
  then Falha IntegrityError
  else
    let i := proximo_rowid (ids_musica t) (seq t) in
    Executado (i, {| linhas := linhas t ++
                       [{| lm_id := i; lm_artista_id := artista_id;
                           lm_titulo := titulo; lm_url := url;
                           lm_genero_id := genero_id |}];
                     seq := i |}).

(** One [col = ?] entry of the [SET] clause, with its bound parameter. *)
Inductive Atribuicao :=
  | SetTitulo (v : string)
  | SetUrl (v : string)
  | SetArtistaId (v : Z)
  | SetGeneroId (v : Z).

Definition atribuir (r : LinhaMusica) (a : Atribuicao) : LinhaMusica :=
  match a with
  | SetTitulo v =>
      {| lm_id := lm_id r; lm_artista_id := lm_artista_id r; lm_titulo := v;
         lm_url := lm_url r; lm_genero_id := lm_genero_id r |}
  | SetUrl v =>
      {| lm_id := lm_id r; lm_artista_id := lm_artista_id r;
         lm_titulo := lm_titulo r; lm_url := v; lm_genero_id := lm_genero_id r |}
  | SetArtistaId v =>
      {| lm_id := lm_id r; lm_artista_id := v; lm_titulo := lm_titulo r;
         lm_url := lm_url r; lm_genero_id := lm_genero_id r |}
  | SetGeneroId v =>
      {| lm_id := lm_id r; lm_artista_id := lm_artista_id r;
         lm_titulo := lm_titulo r; lm_url := lm_url r; lm_genero_id := v |}
  end.

Definition atribuir_todas (sets : list Atribuicao) (r : LinhaMusica) : LinhaMusica :=
  foldl atribuir r sets.

(** The new [url] of the updated row [r'] (old row [r]) is held by a row
    other than the one being updated. *)
Definition url_em_conflito (musica_id : Z) (t : Tabela LinhaMusica)
    (r r' : LinhaMusica) : bool :=
  bool_decide (lm_url r' ≠ lm_url r)
  && bool_decide (Exists (λ o, lm_id o ≠ musica_id ∧ lm_url o = lm_url r') (linhas t)).

(** A foreign key of the updated row [r'] was changed to an id without a
    parent row. *)
Definition pai_em_falta (bd : BancoDeDadosMusica) (r r' : LinhaMusica) : bool :=
  (bool_decide (lm_artista_id r' ≠ lm_artista_id r)
   && bool_decide (lm_artista_id r' ∉ ids_nome (artistas bd)))
  || (bool_decide (lm_genero_id r' ≠ lm_genero_id r)
      && bool_decide (lm_genero_id r' ∉ ids_nome (generos bd))).

(** [UPDATE musicas SET ... WHERE id = ?].  The result carries [rowcount],
    the number of rows the [WHERE] clause selected. *)
Definition update_musica (sets : list Atribuicao) (musica_id : Z)
    (bd : BancoDeDadosMusica) : Execucao (nat * Tabela LinhaMusica) :=
  let t := musicas bd in
  let alvos := filter (λ r, lm_id r = musica_id) (linhas t) in
  if existsb (λ r, url_em_conflito musica_id t r (atribuir_todas sets r)) alvos
  then Falha IntegrityError
  else if foreign_keys (conexao bd)
          && existsb (λ r, pai_em_falta bd r (atribuir_todas sets r)) alvos
  then Falha IntegrityError
  else
    Executado (length alvos,
               {| linhas := (λ r, if decide (lm_id r = musica_id)
                                  then atribuir_todas sets r else r)
                            <$> linhas t;
                  seq := seq t |}).

(** [DELETE FROM musicas WHERE id = ?], with its [rowcount]. *)
Definition delete_musica (musica_id : Z) (t : Tabela LinhaMusica)
  : Execucao (nat * Tabela LinhaMusica) :=
  Executado (length (filter (λ r, lm_id r = musica_id) (linhas t)),
             {| linhas := filter (λ r, lm_id r ≠ musica_id) (linhas t);
                seq := seq t |}).

(** ** The engine: queries *)

(** [dict(row)] of the track queries: the columns of [m.*] followed by
    [artista_nome] and [genero_nome]. *)
Record MusicaDict := {
  d_id : Z;
  d_artista_id : Z;
  d_titulo : string;
  d_url : string;
  d_genero_id : Z;
  d_artista_nome : string;
  d_genero_nome : string
}.

Definition linha_juncao (m : LinhaMusica) (a g : LinhaNome) : MusicaDict :=
  {| d_id := lm_id m; d_artista_id := lm_artista_id m; d_titulo := lm_titulo m;
     d_url := lm_url m; d_genero_id := lm_genero_id m;
     d_artista_nome := ln_nome a; d_genero_nome := ln_nome g |}.

(** The columns of [m.*] in a joined row: the row of [musicas] it came
    from. *)
Definition linha_de_dict (d : MusicaDict) : LinhaMusica :=
  {| lm_id := d_id d; lm_artista_id := d_artista_id d; lm_titulo := d_titulo d;
     lm_url := d_url d; lm_genero_id := d_genero_id d |}.

(** [FROM musicas m JOIN artistas a ON m.artista_id = a.id
     JOIN generos g ON m.genero_id = g.id]: an inner join.  [juntar] gives
    the joined rows of one row [m] of [musicas]. *)
Definition juntar (ta tg : Tabela LinhaNome) (m : LinhaMusica) : list MusicaDict :=
  a ← filter (λ a, ln_id a = lm_artista_id m) (linhas ta);
  g ← filter (λ g, ln_id g = lm_genero_id m) (linhas tg);
  [linha_juncao m a g].

Definition juncao (bd : BancoDeDadosMusica) : list MusicaDict :=
  m ← linhas (musicas bd);
  juntar (artistas bd) (generos bd) m.

(** The [BINARY] collation: texts compare character by character, a proper
    prefix first. *)
Definition texto_le (s1 s2 : string) : Prop := String.compare s1 s2 ≠ Gt.

(** [ORDER BY a.nome, m.titulo]. *)
Definition ordem_artista_titulo (x y : MusicaDict) : Prop :=
  match String.compare (d_artista_nome x) (d_artista_nome y) with
  | Lt => True
  | Eq => texto_le (d_titulo x) (d_titulo y)
  | Gt => False
  end.

(** [ORDER BY m.titulo]; [ORDER BY nome]. *)
Definition ordem_titulo (x y : MusicaDict) : Prop :=
  texto_le (d_titulo x) (d_titulo y).
Definition ordem_nome (x y : LinhaNome) : Prop :=
  texto_le (ln_nome x) (ln_nome y).

#[global] Instance texto_le_dec s1 s2 : Decision (texto_le s1 s2).
Proof. unfold texto_le. apply _. Defined.

#[global] Instance ordem_artista_titulo_dec x y : Decision (ordem_artista_titulo x y).
Proof.
  unfold ordem_artista_titulo.
  destruct (String.compare (d_artista_nome x) (d_artista_nome y)); apply _.
Defined.

#[global] Instance ordem_titulo_dec x y : Decision (ordem_titulo x y).
Proof. unfold ordem_titulo. apply _. Defined.

#[global] Instance ordem_nome_dec x y : Decision (ordem_nome x y).
Proof. unfold ordem_nome. apply _. Defined.

(** The sorter of the engine.  (Among rows of equal keys the engine promises
    no order; the model has the order of this merge sort.) *)
Definition order_by {A} (R : relation A) `{∀ x y, Decision (R x y)}
  (l : list A) : list A := merge_sort R l.

(** The letters [A]-[Z] brought to lower case, every other character as it
    is. *)
Definition minuscula (c : ascii) : ascii :=
  let n := N_of_ascii c in
  if ((65 <=? n) && (n <=? 90))%N then ascii_of_N (n + 32) else c.

Fixpoint minusculas (s : string) : string :=
  match s with
  | EmptyString => EmptyString
  | String c s' => String (minuscula c) (minusculas s')
  end.

(** [s.startswith(t)] and [t in s]: the text [t] begins [s]; the text [t]
    occurs in [s]. *)
Fixpoint comeca_por (t s : string) : bool :=
  match t, s with
  | EmptyString, _ => true
  | String c t', String d s' => Ascii.eqb c d && comeca_por t' s'
  | String _ _, EmptyString => false
  end.

Fixpoint contem (t s : string) : bool :=
  comeca_por t s || (if s is String _ s' then contem t s' else false).

(** [s LIKE p]: in the pattern [p], [%] matches any run of characters, [_]
    any one character, and any other character matches itself, the letters
    [A]-[Z] and [a]-[z] without regard to case.  There is no escape
    character. *)
Fixpoint like (p s : string) {struct p} : bool :=
  match p with
  | EmptyString => if s is EmptyString then true else false
  | String c p' =>
      if Ascii.eqb c "%" then
        (fix resto (s : string) : bool :=
           like p' s || (if s is String _ s' then resto s' else false)) s
      else if Ascii.eqb c "_" then
        (if s is String _ s' then like p' s' else false)
      else
        (if s is String d s'
         then Ascii.eqb (minuscula c) (minuscula d) && like p' s'
         else false)
  end.

(** ** [BancoDeDadosMusica]: the methods

    A method takes the store and returns its Python result and the store it
    leaves.  [Optional[...]] is [option]; a query leaves the store as it is
    and returns its result only. *)

(** [fetchone()]: the first row of the result, or [None]. *)
Definition fetchone {A} (resultado : list A) : option A := head resultado.

Definition adicionar_artista (nome : string) (bd : BancoDeDadosMusica)
  : option Z * BancoDeDadosMusica :=
  match insert_nome nome (artistas bd) with
  | Executado (lastrowid, t) => (Some lastrowid, com_artistas t bd)
  | Falha IntegrityError =>
      (fetchone (select_id_por_nome nome (artistas bd)), bd)
  | Falha _ => (None, bd)
  end.

Definition obter_artista_por_id (artista_id : Z) (bd : BancoDeDadosMusica)
  : option LinhaNome :=
  fetchone (select_nome_por_id artista_id (artistas bd)).

Definition obter_artista_por_nome (nome : string) (bd : BancoDeDadosMusica)
  : option LinhaNome :=
  fetchone (select_nome_por_nome nome (artistas bd)).

Definition obter_todos_artistas (bd : BancoDeDadosMusica) : list LinhaNome :=
  order_by ordem_nome (linhas (artistas bd)).

Definition adicionar_genero (nome : string) (bd : BancoDeDadosMusica)
  : option Z * BancoDeDadosMusica :=
  match insert_nome nome (generos bd) with
  | Executado (lastrowid, t) => (Some lastrowid, com_generos t bd)
  | Falha IntegrityError =>
      (fetchone (select_id_por_nome nome (generos bd)), bd)
  | Falha _ => (None, bd)
  end.

Definition obter_genero_por_id (genero_id : Z) (bd : BancoDeDadosMusica)
  : option LinhaNome :=
  fetchone (select_nome_por_id genero_id (generos bd)).

Definition obter_genero_por_nome (nome : string) (bd : BancoDeDadosMusica)
  : option LinhaNome :=
  fetchone (select_nome_por_nome nome (generos bd)).

Definition obter_todos_generos (bd : BancoDeDadosMusica) : list LinhaNome :=
  order_by ordem_nome (linhas (generos bd)).

Definition adicionar_musica (artista_id : Z) (titulo url : string) (genero_id : Z)
    (bd : BancoDeDadosMusica) : option Z * BancoDeDadosMusica :=
  match insert_musica artista_id titulo url genero_id bd with
  | Executado (lastrowid, t) => (Some lastrowid, com_musicas t bd)
  | Falha IntegrityError => (None, bd)
  | Falha _ => (None, bd)
  end.

Definition obter_musica_por_id (musica_id : Z) (bd : BancoDeDadosMusica)
  : option MusicaDict :=
  fetchone (filter (λ d, d_id d = musica_id) (juncao bd)).

Definition obter_musica_por_url (url : string) (bd : BancoDeDadosMusica)
  : option MusicaDict :=
  fetchone (filter (λ d, d_url d = url) (juncao bd)).

Definition obter_musicas_por_artista (artista_id : Z) (bd : BancoDeDadosMusica)
  : list MusicaDict :=
  order_by ordem_titulo (filter (λ d, d_artista_id d = artista_id) (juncao bd)).

Definition obter_musicas_por_genero (genero_id : Z) (bd : BancoDeDadosMusica)
  : list MusicaDict :=
  order_by ordem_titulo (filter (λ d, d_genero_id d = genero_id) (juncao bd)).

Definition obter_todas_musicas (bd : BancoDeDadosMusica) : list MusicaDict :=
  order_by ordem_artista_titulo (juncao bd).

(** [if titulo:] and [if artista_id:]: an argument left at [None], an empty
    text and the integer [0] are all false. *)
Definition texto_dado (arg : option string) : option string :=
  match arg with
  | Some v => if decide (v = "") then None else Some v
  | None => None
  end.

Definition inteiro_dado (arg : option Z) : option Z :=
  match arg with
  | Some v => if decide (v = 0%Z) then None else Some v
  | None => None
  end.

(** The [updates] and [params] lists that [atualizar_musica] builds, entry
    by entry. *)
Definition updates_de (titulo url : option string) (artista_id genero_id : option Z)
  : list Atribuicao :=
  (if texto_dado titulo is Some v then [SetTitulo v] else [])
  ++ (if texto_dado url is Some v then [SetUrl v] else [])
  ++ (if inteiro_dado artista_id is Some v then [SetArtistaId v] else [])
  ++ (if inteiro_dado genero_id is Some v then [SetGeneroId v] else []).

Definition atualizar_musica (musica_id : Z) (titulo url : option string)
    (artista_id genero_id : option Z) (bd : BancoDeDadosMusica)
  : bool * BancoDeDadosMusica :=
  let updates := updates_de titulo url artista_id genero_id in
  if updates is [] then (false, bd)
  else
    match update_musica updates musica_id bd with
    | Executado (rowcount, t) => (bool_decide (0 < rowcount), com_musicas t bd)
    | Falha _ => (false, bd)
    end.

Definition deletar_musica (musica_id : Z) (bd : BancoDeDadosMusica)
  : bool * BancoDeDadosMusica :=
  match delete_musica musica_id (musicas bd) with
  | Executado (rowcount, t) => (bool_decide (0 < rowcount), com_musicas t bd)
  | Falha _ => (false, bd)
  end.

Record Estatisticas := { e_artistas : nat; e_generos : nat; e_musicas : nat }.

Definition obter_estatisticas (bd : BancoDeDadosMusica) : Estatisticas :=
  {| e_artistas := length (linhas (artistas bd));
     e_generos := length (linhas (generos bd));
     e_musicas := length (linhas (musicas bd)) |}.

Definition buscar_musicas (termo : string) (bd : BancoDeDadosMusica)
  : list MusicaDict :=
  let padrao := "%" +:+ termo +:+ "%" in
  order_by ordem_artista_titulo
    (filter (λ d, like padrao (d_titulo d) || like padrao (d_artista_nome d))
            (juncao bd)).

(** *** The store as a transition system, and what is said of it below *)

(** The body that [adicionar_artista] and [adicionar_genero] share, on the
    table each of them works on. *)
Definition obter_ou_criar (nome : string) (t : Tabela LinhaNome)
  : option Z * Tabela LinhaNome :=
  match insert_nome nome t with
  | Executado (lastrowid, t') => (Some lastrowid, t')
  | Falha IntegrityError => (fetchone (select_id_por_nome nome t), t)
  | Falha _ => (None, t)
  end.

(** One call of a method that writes to the store. *)
Inductive Operacao :=
  | OpAdicionarArtista (nome : string)
  | OpAdicionarGenero (nome : string)
  | OpAdicionarMusica (artista_id : Z) (titulo url : string) (genero_id : Z)
  | OpAtualizarMusica (musica_id : Z) (titulo url : option string)
                      (artista_id genero_id : option Z)
  | OpDeletarMusica (musica_id : Z).

Definition aplicar_op (op : Operacao) (bd : BancoDeDadosMusica) : BancoDeDadosMusica :=
  match op with
  | OpAdicionarArtista nome => (adicionar_artista nome bd).2
  | OpAdicionarGenero nome => (adicionar_genero nome bd).2
  | OpAdicionarMusica a t u g => (adicionar_musica a t u g bd).2
  | OpAtualizarMusica i t u a g => (atualizar_musica i t u a g bd).2
  | OpDeletarMusica i => (deletar_musica i bd).2
  end.

(** The stores a program can get to from a new database file. *)
Inductive alcancavel : BancoDeDadosMusica → Prop :=
  | alcancavel_novo : alcancavel banco_novo
  | alcancavel_op op bd : alcancavel bd → alcancavel (aplicar_op op bd).

(** What the engine enforces on every connection: the [PRIMARY KEY] of each
    table and the two [UNIQUE] columns. *)
Record integro (bd : BancoDeDadosMusica) : Prop := {
  integro_ids_artistas : NoDup (ids_nome (artistas bd));
  integro_nomes_artistas : NoDup (nomes (artistas bd));
  integro_ids_generos : NoDup (ids_nome (generos bd));
  integro_nomes_generos : NoDup (nomes (generos bd));
  integro_ids_musicas : NoDup (ids_musica (musicas bd));
  integro_urls : NoDup (urls (musicas bd))
}.

(** An entry of the [SET] clause whose value is not empty and not zero. *)
Definition dada (a : Atribuicao) : Prop :=
  match a with
  | SetTitulo v | SetUrl v => v ≠ ""
  | SetArtistaId v | SetGeneroId v => v ≠ 0%Z
  end.

(** What the two [FOREIGN KEY] clauses ask for: every track has its artist
    and its genre. *)
Definition referencias_validas (bd : BancoDeDadosMusica) : Prop :=
  ∀ m, m ∈ linhas (musicas bd) →
       pais_existem bd (lm_artista_id m) (lm_genero_id m) = true.

(** The term holds neither of the two wildcards of [LIKE]. *)
Fixpoint sem_curingas (t : string) : bool :=
  match t with
  | EmptyString => true
  | String c t' =>
      negb (Ascii.eqb c "%") && negb (Ascii.eqb c "_") && sem_curingas t'
  end.

(** ** [main.py]: the entities and the catalogue *)

(** The dataclass [Musica].  No field is type-checked at run time:
    [CatalogoMusical.adicionar_musica] fills [id] with whatever the store
    returned, [None] included. *)
Record Musica := {
  m_id : option Z;
  m_titulo : string;
  m_url : string;
  m_artista_id : option Z;
  m_genero_id : option Z;
  m_artista_nome : option string;
  m_genero_nome : option string
}.

Record Artista := { a_id : Z; a_nome : string }.
Record Genero := { g_id : Z; g_nome : string }.

Record CatalogoMusical := {
  db : BancoDeDadosMusica;
  _musicas : list Musica;
  _artistas : list Artista;
  _generos : list Genero
}.

Definition CatalogoMusical_init (bd : BancoDeDadosMusica) : CatalogoMusical :=
  {| db := bd; _musicas := []; _artistas := []; _generos := [] |}.

(** The store's [adicionar_musica] as the catalogue calls it: an id that is
    [None] is bound as NULL and fails the [NOT NULL] constraint. *)
Definition adicionar_musica_ids (artista_id : option Z) (titulo url : string)
    (genero_id : option Z) (bd : BancoDeDadosMusica)
  : option Z * BancoDeDadosMusica :=
  match artista_id, genero_id with
  | Some a, Some g => adicionar_musica a titulo url g bd
  | _, _ => (None, bd)
  end.

Definition CatalogoMusical_adicionar_musica (titulo url artista genero : string)
    (c : CatalogoMusical) : Musica * CatalogoMusical :=
  let '(artista_id, bd1) := adicionar_artista artista (db c) in
  let '(genero_id, bd2) := adicionar_genero genero bd1 in
  let '(musica_id, bd3) := adicionar_musica_ids artista_id titulo url genero_id bd2 in
  let musica :=
    {| m_id := musica_id; m_titulo := titulo; m_url := url;
       m_artista_id := artista_id; m_genero_id := genero_id;
       m_artista_nome := Some artista; m_genero_nome := Some genero |} in
  (musica,
   {| db := bd3; _musicas := _musicas c ++ [musica];
      _artistas := _artistas c; _generos := _generos c |}).

Definition musica_de_dict (m : MusicaDict) : Musica :=
  {| m_id := Some (d_id m); m_titulo := d_titulo m; m_url := d_url m;
     m_artista_id := Some (d_artista_id m); m_genero_id := Some (d_genero_id m);
     m_artista_nome := Some (d_artista_nome m);
     m_genero_nome := Some (d_genero_nome m) |}.

Definition CatalogoMusical_buscar_musicas (c : CatalogoMusical) : list Musica :=
  musica_de_dict <$> obter_todas_musicas (db c).

Definition CatalogoMusical_buscar_por_artista (artista_id : Z) (c : CatalogoMusical)
  : list Musica :=
  musica_de_dict <$> obter_musicas_por_artista artista_id (db c).

Definition CatalogoMusical_buscar_por_genero (genero_id : Z) (c : CatalogoMusical)
  : list Musica :=
  musica_de_dict <$> obter_musicas_por_genero genero_id (db c).

Definition CatalogoMusical_listar_artistas (c : CatalogoMusical) : list Artista :=
  (λ a, {| a_id := ln_id a; a_nome := ln_nome a |}) <$> obter_todos_artistas (db c).

Definition CatalogoMusical_listar_generos (c : CatalogoMusical) : list Genero :=
  (λ g, {| g_id := ln_id g; g_nome := ln_nome g |}) <$> obter_todos_generos (db c).

Definition CatalogoMusical_estatisticas (c : CatalogoMusical) : Estatisticas :=
  obter_estatisticas (db c).

(** The catalogue after the two additions of the spec's example: the track
    ["Y"] of artist ["B"], then the track ["X"] of artist ["A"]. *)
Definition catalogo_exemplo : CatalogoMusical :=
  (CatalogoMusical_adicionar_musica "X" "u2" "A" "G"
     (CatalogoMusical_adicionar_musica "Y" "u1" "B" "G"
        (CatalogoMusical_init banco_novo)).2).2.

Definition bd_exemplo : BancoDeDadosMusica := db catalogo_exemplo.

(** The catalogue of the spec's search example: a track titled
    ["Abba Tribute"], a track of the artist ["Abba"], and the track ["Cde"]
    of the artist ["Ghi"]. *)
Definition catalogo_busca : CatalogoMusical :=
  (CatalogoMusical_adicionar_musica "Cde" "u3" "Ghi" "G"
     (CatalogoMusical_adicionar_musica "Waterloo" "u2" "Abba" "G"
        (CatalogoMusical_adicionar_musica "Abba Tribute" "u1" "Xyz" "G"
           (CatalogoMusical_init banco_novo)).2).2).2.

(** The text [t] occurs in [s] when the case of the letters [A]-[Z] is
    disregarded. *)
Definition ocorre_sem_caixa (t s : string) : Prop :=
  ∃ pre meio suf, s = pre +:+ meio +:+ suf ∧ minusculas meio = minusculas t.

(** ** The run-time world of the player *)

(** The Python values handed between the methods below: a flag, or a list
    of [Musica] held by reference. *)
Inductive PyVal := PyBool (b : bool) | PyList (ref : nat).

Inductive PyExc := TypeError (msg : string) | IndexError (msg : string).

Definition str_exc (e : PyExc) : string :=
  match e with TypeError msg => msg | IndexError msg => msg end.

(** How one run of the external player ends: [subprocess.run] returns,
    raises [CalledProcessError] (with its text and the captured stderr) or
    raises [FileNotFoundError]. *)
Inductive ResultadoProcesso :=
  | Concluido
  | CalledProcessError (descricao stderr : string)
  | FileNotFoundError.

(** What the program does to the outside: a line on the console, or one
    run of an external command. *)
Inductive Evento := Print (texto : string) | Subprocess (command : list string).

Record Player := { video : bool; volume : Z; _playlist_atual : PyVal }.

Record ServicoMusical := { catalogo : CatalogoMusical; player : Player }.

(** The state the methods run in: the service object, the list objects
    ([objetos !! ref] is the list behind [PyList ref]), the events so far,
    and the two things the outside decides: the draws of the random
    generator still to come and the outcomes of the runs of [mpv] still to
    come. *)
Record Mundo := {
  servico : ServicoMusical;
  objetos : list (list Musica);
  saida : list Evento;
  acaso : nat → nat;
  mpv : nat → ResultadoProcesso
}.

Inductive Resultado (A : Type) := Retorna (a : A) | Levanta (e : PyExc).
Arguments Retorna {A} _.
Arguments Levanta {A} _.

Definition M (A : Type) : Type := Mundo → Resultado A * Mundo.

#[global] Instance M_ret : MRet M := λ A a w, (Retorna a, w).

#[global] Instance M_bind : MBind M := λ A B f c w,
  match c w with
  | (Retorna a, w') => f a w'
  | (Levanta e, w') => (Levanta e, w')
  end.

Definition levantar {A} (e : PyExc) : M A := λ w, (Levanta e, w).

(** [try: c  except Exception as e: h e]. *)
Definition tentar {A} (c : M A) (h : PyExc → M A) : M A := λ w,
  match c w with
  | (Retorna a, w') => (Retorna a, w')
  | (Levanta e, w') => h e w'
  end.

Definition emitir (ev : Evento) : M unit := λ w,
  (Retorna (),
   {| servico := servico w; objetos := objetos w; saida := saida w ++ [ev];
      acaso := acaso w; mpv := mpv w |}).

Definition print (texto : string) : M unit := emitir (Print texto).

Definition obter_player : M Player := λ w, (Retorna (player (servico w)), w).

Definition obter_catalogo : M CatalogoMusical := λ w,
  (Retorna (catalogo (servico w)), w).

Definition gravar_player (p : Player) : M unit := λ w,
  (Retorna (),
   {| servico := {| catalogo := catalogo (servico w); player := p |};
      objetos := objetos w; saida := saida w; acaso := acaso w; mpv := mpv w |}).

(** A list display or comprehension: a new list object. *)
Definition nova_lista (l : list Musica) : M PyVal := λ w,
  (Retorna (PyList (length (objetos w))),
   {| servico := servico w; objetos := objetos w ++ [l]; saida := saida w;
      acaso := acaso w; mpv := mpv w |}).

Definition gravar_lista (ref : nat) (l : list Musica) : M unit := λ w,
  (Retorna (),
   {| servico := servico w; objetos := <[ref := l]> (objetos w); saida := saida w;
      acaso := acaso w; mpv := mpv w |}).

(** [len(v)] and iteration need a list.  (A reference is always that of a
    list object; the branch for a reference that is not only makes the
    function total.) *)
Definition ler_lista (erro : string) (v : PyVal) : M (list Musica) := λ w,
  match v with
  | PyList ref =>
      match objetos w !! ref with
      | Some l => (Retorna l, w)
      | None => (Levanta (TypeError erro), w)
      end
  | PyBool _ => (Levanta (TypeError erro), w)
  end.

(** Truth value of [v] in [if v:] and [not v]. *)
Definition verdadeiro (v : PyVal) : M bool :=
  match v with
  | PyBool b => mret b
  | PyList _ => l ← ler_lista "object is not a list" v;
                mret (if l is [] then false else true)
  end.

(** [self._randbelow(n)]: the next draw, brought below [n]. *)
Definition randbelow (n : nat) : M nat := λ w,
  (Retorna (acaso w 0 `mod` n),
   {| servico := servico w; objetos := objetos w; saida := saida w;
      acaso := λ k, acaso w (S k); mpv := mpv w |}).

(** [subprocess.run(command, capture_output=True, text=True, check=True)]. *)
Definition subprocess_run (command : list string) : M ResultadoProcesso := λ w,
  (Retorna (mpv w 0),
   {| servico := servico w; objetos := objetos w;
      saida := saida w ++ [Subprocess command];
      acaso := acaso w; mpv := λ k, mpv w (S k) |}).

Definition passar : M unit := mret ().

(** [for x in l: corpo x]. *)
Fixpoint para_cada {A} (l : list A) (corpo : A → M unit) : M unit :=
  match l with
  | [] => mret ()
  | x :: l' => corpo x;; para_cada l' corpo
  end.

(** *** Calls *)

(** A Python call binds the positional arguments to the parameters of the
    [def] and raises [TypeError] when their numbers differ.  [parametros]
    and [dados] leave [self] out; the message counts it, as the interpreter
    does (the wording is that of CPython 3.10 and later). *)
Definition plural (n : nat) : string := if decide (n = 1) then "" else "s".

Fixpoint citar_varios (nomes : list string) : string :=
  match nomes with
  | [] => ""
  | [a] => "and '" +:+ a +:+ "'"
  | a :: resto => "'" +:+ a +:+ "', " +:+ citar_varios resto
  end.

Definition citar (nomes : list string) : string :=
  match nomes with
  | [] => ""
  | [a] => "'" +:+ a +:+ "'"
  | [a; b] => "'" +:+ a +:+ "' and '" +:+ b +:+ "'"
  | _ => citar_varios nomes
  end.

Definition erro_aridade (qualname : string) (parametros : list string)
    (dados : nat) : PyExc :=
  let n := length parametros in
  if decide (n < dados) then
    TypeError (qualname +:+ "() takes " +:+ pretty (S n)
               +:+ " positional argument" +:+ plural (S n)
               +:+ " but " +:+ pretty (S dados) +:+ " were given")
  else
    let falta := drop dados parametros in
    TypeError (qualname +:+ "() missing " +:+ pretty (length falta)
               +:+ " required positional argument" +:+ plural (length falta)
               +:+ ": " +:+ citar falta).

(** [def qualname(self): corpo]. *)
Definition def0 {A} (qualname : string) (corpo : M A) (args : list PyVal) : M A :=
  match args with
  | [] => corpo
  | _ => levantar (erro_aridade qualname [] (length args))
  end.

(** [def qualname(self, p1, p2): corpo]. *)
Definition def2 {A} (qualname p1 p2 : string) (corpo : PyVal → PyVal → M A)
    (args : list PyVal) : M A :=
  match args with
  | [v1; v2] => corpo v1 v2
  | _ => levantar (erro_aridade qualname [p1; p2] (length args))
  end.

(** *** [random.shuffle]

    The function of Python's library, as CPython defines it: from the last
    position down to the second, each position is swapped with one drawn at
    or before it. *)

(** [x[i], x[j] = x[j], x[i]] on the list object [ref]. *)
Definition trocar (ref i j : nat) : M unit :=
  x ← ler_lista "object is not subscriptable" (PyList ref);
  match x !! j, x !! i with
  | Some xj, Some xi => gravar_lista ref (<[j := xi]> (<[i := xj]> x))
  | _, _ => levantar (IndexError "list index out of range")
  end.

(** [for i in reversed(range(1, len(x))): j = randbelow(i + 1); swap]:
    [shuffle_de ref n] runs the iterations [i = n, n - 1, ..., 1]. *)
Fixpoint shuffle_de (ref n : nat) : M unit :=
  match n with
  | 0 => mret ()
  | S n' => j ← randbelow (S (S n')); trocar ref (S n') j;; shuffle_de ref n'
  end.

Definition shuffle (x : PyVal) : M unit :=
  l ← ler_lista "object of type 'bool' has no len()" x;
  match x with
  | PyList ref => shuffle_de ref (length l - 1)
  | PyBool _ => mret ()
  end.

(** ** [tocador.py] *)

(** The [command] list that [tocar] builds. *)
Definition command (link : string) (video : bool) (volume : Z) : list string :=
  let imagem := if video then "" else "--no-video" in
  ["mpv"; imagem; "--volume=" +:+ pretty volume; link].

Definition tocar (link : string) (video : bool) (volume : Z) : M unit :=
  result ← subprocess_run (command link video volume);
  match result with
  | Concluido => mret ()
  | CalledProcessError e stderr =>
      print ("Erro ao executar comando: " +:+ e);;
      print ("Saída de erro: " +:+ stderr)
  | FileNotFoundError =>
      print "Comando mpv não encontrado. Verifique se está instalado."
  end.

(** ** [main.py]: the player and the service *)

Definition Musica_tocar (self : Musica) (video : bool) (volume : Z) : M unit :=
  print ("Tocando: " +:+ m_titulo self);;
  tocar (m_url self) video volume.

Definition Musica_str (self : Musica) : string :=
  default "" (m_artista_nome self) +:+ " - " +:+ m_titulo self.

(** [Player.__init__]; [playlist] is the reference of the new empty list
    that [self._playlist_atual = []] makes. *)
Definition Player_init (playlist : nat) : Player :=
  {| video := false; volume := 80; _playlist_atual := PyList playlist |}.

Definition Player_criar_playlist (musicas : PyVal) : M unit :=
  self ← obter_player;
  gravar_player {| video := video self; volume := volume self;
                   _playlist_atual := musicas |}.

Definition nl : string := String (ascii_of_nat 10) EmptyString.

Definition Player_exibir_playlist : M unit :=
  self ← obter_player;
  print (nl +:+ "===--- Playlist ---===" +:+ nl);;
  l ← ler_lista "object is not iterable" (_playlist_atual self);
  para_cada (imap (λ i musica, (S i, musica)) l)
    (λ '(i, musica), print ("[" +:+ pretty i +:+ "] " +:+ Musica_str musica)).

Definition Player_tocar_playlist : M unit :=
  self ← obter_player;
  cheia ← verdadeiro (_playlist_atual self);
  if negb cheia then print "Playlist vazia!"
  else
    Player_exibir_playlist;;
    l ← ler_lista "object is not iterable" (_playlist_atual self);
    para_cada l (λ musica,
      self ← obter_player;
      Musica_tocar musica (video self) (volume self)).

Definition Player_tocar_musicas : list PyVal → M unit :=
  def2 "Player.tocar_musicas" "musicas" "aleatorio" (λ musicas aleatorio,
    b ← verdadeiro aleatorio;
    (if (b : bool) then shuffle musicas else passar);;
    Player_criar_playlist musicas;;
    Player_tocar_playlist).

Definition ServicoMusical_tocar_todas : list PyVal → M unit :=
  def0 "ServicoMusical.tocar_todas" (
    c ← obter_catalogo;
    musicas ← nova_lista (CatalogoMusical_buscar_musicas c);
    Player_tocar_musicas [musicas]).

(** The two callers below are always called with their two arguments, and
    are given them typed. *)
Definition ServicoMusical_tocar_por_artista (artista_id : Z) (aleatorio : bool)
  : M unit :=
  c ← obter_catalogo;
  musicas ← nova_lista (CatalogoMusical_buscar_por_artista artista_id c);
  Player_tocar_musicas [musicas; PyBool aleatorio].

Definition ServicoMusical_tocar_por_genero (genero_id : Z) (aleatorio : bool)
  : M unit :=
  c ← obter_catalogo;
  musicas ← nova_lista (CatalogoMusical_buscar_por_genero genero_id c);
  Player_tocar_musicas [musicas; PyBool aleatorio].

(** [InterfaceUsuario.aleatorio] on the answer typed at its prompt:
    ["s" in ativar.lower()] (lowering the other letters does not change
    where an ["s"] is). *)
Definition InterfaceUsuario_aleatorio (ativar : string) : bool :=
  contem "s" (minusculas ativar).

(** [InterfaceUsuario.executar], one turn of the loop with the menu choice
    [3] and the answer [ativar] to the prompt of [aleatorio]: the branch
    [elif opcao == 3] under the handler [except Exception as e].  The menu
    and the prompts that the turn prints before it are left out. *)
Definition InterfaceUsuario_executar_opcao_3 (ativar : string) : M unit :=
  let modo_aleatorio := InterfaceUsuario_aleatorio ativar in
  tentar (ServicoMusical_tocar_todas [PyBool modo_aleatorio])
         (λ e, print ("Erro: " +:+ str_exc e)).

(** A world for the examples: the service over the example catalogue, the
    empty playlist of a new player as list object [0], and the listing of
    all tracks as list object [1]. *)
Definition mundo_exemplo : Mundo :=
  {| servico := {| catalogo := catalogo_exemplo; player := Player_init 0 |};
     objetos := [[]; CatalogoMusical_buscar_musicas catalogo_exemplo];
     saida := [];
     acaso := λ k, k;
     mpv := λ _, Concluido |}.

(** The runs of the external player among the events [evs], in order. *)
Definition comandos (evs : list Evento) : list (list string) :=
  omap (λ ev, if ev is Subprocess c then Some c else None) evs.

(** Run from [w], [c] returns normally in [w'], having added the events
    [evs] and left the service object and the list objects as they were. *)
Definition emite (c : M unit) (w : Mundo) (evs : list Evento) (w' : Mundo) : Prop :=
  c w = (Retorna (), w')
  ∧ servico w' = servico w
  ∧ objetos w' = objetos w
  ∧ saida w' = saida w ++ evs.

(** ** Further notions for the properties *)

(** A sequence of calls of the writing methods, first to last. *)
Definition aplicar_ops (ops : list Operacao) (bd : BancoDeDadosMusica)
  : BancoDeDadosMusica :=
  foldl (λ b op, aplicar_op op b) bd ops.

(** No row of the table has an id above the table's counter. *)
Definition seq_cobre {L} (id_de : L → Z) (t : Tabela L) : Prop :=
  ∀ r, r ∈ linhas t → (id_de r ≤ seq t)%Z.

#[global] Instance LinhaNome_eq_dec : EqDecision LinhaNome.
Proof. solve_decision. Defined.

#[global] Instance LinhaMusica_eq_dec : EqDecision LinhaMusica.
Proof. solve_decision. Defined.

#[global] Instance MusicaDict_eq_dec : EqDecision MusicaDict.
Proof. solve_decision. Defined.

#[global] Instance Musica_eq_dec : EqDecision Musica.
Proof. solve_decision. Defined.

(** [Artista] and [Genero] values in ascending order of name. *)
Definition ordem_artista (x y : Artista) : Prop := texto_le (a_nome x) (a_nome y).
Definition ordem_genero (x y : Genero) : Prop := texto_le (g_nome x) (g_nome y).

(** The store of the catalogue meets the engine's constraints, and every
    track in it has its artist and its genre. *)
Definition catalogo_coerente (c : CatalogoMusical) : Prop :=
  integro (db c) ∧ referencias_validas (db c).

Definition ordem_titulo_musica (x y : Musica) : Prop :=
  texto_le (m_titulo x) (m_titulo y).

(** The events [evs] are those of playing the stored tracks that [P]
    selects, from the world [w]: one run of the external player for each
    of them, in order of title when [aleatorio] is off. *)
Definition toca_selecao (P : LinhaMusica → Prop) `{∀ r, Decision (P r)}
    (aleatorio : bool) (w : Mundo) (evs : list Evento) : Prop :=
  ∃ l',
    comandos evs
    = (λ m, command (m_url m) (video (player (servico w)))
                    (volume (player (servico w)))) <$> l'
    ∧ ((λ m, (m_titulo m, m_url m)) <$> l'
       ≡ₚ (λ r, (lm_titulo r, lm_url r))
            <$> filter P (linhas (musicas (db (catalogo (servico w))))))
    ∧ (aleatorio = false → StronglySorted ordem_titulo_musica l').

(** ** [main.py]: the user interface

    What the user types reaches a method as arguments, one for each [input]
    the method can come to.  The prompts that [input] writes are not
    events. *)

(** [__str__] of the two classes whose objects are offered in a menu. *)
Class Str (A : Type) := str : A → string.
#[global] Instance Artista_Str : Str Artista := a_nome.
#[global] Instance Genero_Str : Str Genero := g_nome.

Definition gravar_catalogo (c : CatalogoMusical) : M unit := λ w,
  (Retorna (),
   {| servico := {| catalogo := c; player := player (servico w) |};
      objetos := objetos w; saida := saida w; acaso := acaso w; mpv := mpv w |}).

(** [ServicoMusical.adicionar_musica]; the catalogue object is changed in
    place. *)
Definition ServicoMusical_adicionar_musica (titulo url artista genero : string)
  : M Musica :=
  c ← obter_catalogo;
  let r := CatalogoMusical_adicionar_musica titulo url artista genero c in
  gravar_catalogo r.2;;
  mret r.1.

(** What [selecionar_opcao] returns; [escolha] is the value of
    [int(input(...))] for the line typed, [None] when it raises
    [ValueError]. *)
Definition opcao_escolhida {A} (opcoes : list A) (escolha : option Z) : option A :=
  match escolha with
  | Some e =>
      if bool_decide (1 ≤ e ≤ Z.of_nat (length opcoes))%Z
      then opcoes !! Z.to_nat (e - 1)
      else None
  | None => None
  end.

Definition InterfaceUsuario_selecionar_opcao {A} `{Str A} (opcoes : list A)
    (titulo : string) (escolha : option Z) : M (option A) :=
  print (nl +:+ "=== " +:+ titulo +:+ " ===");;
  para_cada (imap (λ i opcao, (S i, opcao)) opcoes)
    (λ '(i, opcao), print ("[" +:+ pretty i +:+ "] " +:+ str opcao));;
  print ("[" +:+ pretty (length opcoes + 1) +:+ "] Cancelar");;
  mret (opcao_escolhida opcoes escolha).

(** The lines typed at the prompts of [InterfaceUsuario.adicionar_musica].
    [r_escolha_artista] and [r_escolha_genero] are the values of
    [int(input(...))] in the two menus; [r_artista] and [r_genero] are the
    lines typed at ["Artista: "] and ["Gênero: "], read only when no entry
    of the menu was chosen. *)
Record Respostas := {
  r_titulo : string;
  r_url : string;
  r_escolha_artista : option Z;
  r_artista : string;
  r_escolha_genero : option Z;
  r_genero : string;
  r_confirmar : string
}.

Definition tracos (n : nat) : string := String.concat "" (replicate n "-").

Definition InterfaceUsuario_adicionar_musica (r : Respostas) : M unit :=
  print (nl +:+ "➕ ADICIONAR MÚSICA");;
  print (tracos 30);;
  let titulo := r_titulo r in
  let url := r_url r in
  c ← obter_catalogo;
  let artistas := CatalogoMusical_listar_artistas c in
  artista ← (if artistas is [] then mret (r_artista r)
             else
               artista_obj ← InterfaceUsuario_selecionar_opcao artistas
                 "Selecione o artista ou adicione novo" (r_escolha_artista r);
               mret (if artista_obj is Some a then a_nome a else r_artista r));
  c ← obter_catalogo;
  let generos := CatalogoMusical_listar_generos c in
  genero ← (if generos is [] then mret (r_genero r)
            else
              genero_obj ← InterfaceUsuario_selecionar_opcao generos
                "Selecione o gênero ou adicione novo" (r_escolha_genero r);
              mret (if genero_obj is Some g then g_nome g else r_genero r));
  print (nl +:+ "📋 RESUMO:");;
  print ("Título: " +:+ titulo);;
  print ("Artista: " +:+ artista);;
  print ("Gênero: " +:+ genero);;
  if decide (minusculas (r_confirmar r) = "s") then
    musica ← ServicoMusical_adicionar_musica titulo url artista genero;
    print ("✅ Música '" +:+ m_titulo musica +:+ "' adicionada com sucesso!")
  else passar.

(** [self.modo_aleatorio] is set by [executar] before either method below
    is called; it is given as an argument. *)
Definition InterfaceUsuario_tocar_por_genero (modo_aleatorio : bool)
    (escolha : option Z) : M unit :=
  c ← obter_catalogo;
  let generos := CatalogoMusical_listar_generos c in
  if generos is [] then print "Nenhum gênero cadastrado!"
  else
    genero ← InterfaceUsuario_selecionar_opcao generos "SELECIONE UM GÊNERO" escolha;
    if genero is Some g
    then ServicoMusical_tocar_por_genero (g_id g) modo_aleatorio
    else passar.

Definition InterfaceUsuario_tocar_por_artista (modo_aleatorio : bool)
    (escolha : option Z) : M unit :=
  c ← obter_catalogo;
  let artistas := CatalogoMusical_listar_artistas c in
  if artistas is [] then print "Nenhum artista cadastrado!"
  else
    artista ← InterfaceUsuario_selecionar_opcao artistas "SELECIONE UM ARTISTA" escolha;
    if artista is Some a
    then ServicoMusical_tocar_por_artista (a_id a) modo_aleatorio
    else passar.

(** [InterfaceUsuario.executar], one turn of the loop with the menu choice
    [4] or [5]: the answer [ativar] to the prompt of [aleatorio], then the
    branch of the choice, under the handler [except Exception as e].  The
    menu that the turn prints before it is left out. *)
Definition InterfaceUsuario_executar_opcao_4 (ativar : string)
    (escolha : option Z) : M unit :=
  let modo_aleatorio := InterfaceUsuario_aleatorio ativar in
  tentar (InterfaceUsuario_tocar_por_genero modo_aleatorio escolha)
         (λ e, print ("Erro: " +:+ str_exc e)).

Definition InterfaceUsuario_executar_opcao_5 (ativar : string)
    (escolha : option Z) : M unit :=
  let modo_aleatorio := InterfaceUsuario_aleatorio ativar in
  tentar (InterfaceUsuario_tocar_por_artista modo_aleatorio escolha)
         (λ e, print ("Erro: " +:+ str_exc e)).

(** The same world with the events [evs] added. *)
Definition com_saida (evs : list Evento) (w : Mundo) : Mundo :=
  {| servico := servico w; objetos := objetos w; saida := saida w ++ evs;
     acaso := acaso w; mpv := mpv w |}.

(** The catalogue that a program builds on a new database with the
    additions [adicoes], each a title, a url, an artist and a genre. *)
Definition catalogo_de (adicoes : list (string * string * string * string))
  : CatalogoMusical :=
  foldl (λ c '(titulo, url, artista, genero),
           (CatalogoMusical_adicionar_musica titulo url artista genero c).2)
        (CatalogoMusical_init banco_novo) adicoes.

(** * Properties *)

(** ** Row identifiers *)

Lemma maior_limita (ids : list Z) (x : Z) : x ∈ ids → (x ≤ maior ids)%Z.
Proof.
  induction ids as [|y ids IH]; intros Hx.
  - by apply not_elem_of_nil in Hx.
  - apply elem_of_cons in Hx as [->|Hx]; simpl; [lia|].
    specialize (IH Hx). lia.
Qed.

Lemma proximo_rowid_fresco (ids : list Z) (s : Z) : proximo_rowid ids s ∉ ids.
Proof.
  intros Hin. apply maior_limita in Hin. unfold proximo_rowid in Hin. lia.
Qed.

(** ** Get-or-create on a table of names *)

Section filtro_chave.
Context {A B : Type} `{EqDecision B} (f : A → B).

Lemma filter_chave_ausente (l : list A) (k : B) :
  k ∉ f <$> l → filter (λ r, f r = k) l = [].
Proof.
  induction l as [|x l IH]; intros Hk; [done|].
  rewrite fmap_cons, not_elem_of_cons in Hk. destruct Hk as [Hne Hk].
  rewrite filter_cons_False by congruence. auto.
Qed.

Lemma filter_chave_unica (l : list A) (x : A) :
  NoDup (f <$> l) → x ∈ l → filter (λ r, f r = f x) l = [x].
Proof.
  induction l as [|y l IH]; intros Hnd Hx.
  - by apply not_elem_of_nil in Hx.
  - rewrite fmap_cons, NoDup_cons in Hnd. destruct Hnd as [Hy Hnd].
    apply elem_of_cons in Hx as [->|Hx].
    + rewrite filter_cons_True by done.
      by rewrite filter_chave_ausente.
    + rewrite filter_cons_False; [by apply IH|].
      intros Heq. apply Hy. rewrite Heq. by apply list_elem_of_fmap_2.
Qed.

Lemma filter_chave_diferente (l : list A) (k : B) :
  k ∉ f <$> l → filter (λ r, f r ≠ k) l = l.
Proof.
  induction l as [|x l IH]; intros Hk; [done|].
  rewrite fmap_cons, not_elem_of_cons in Hk. destruct Hk as [Hne Hk].
  rewrite filter_cons_True by congruence. by rewrite IH.
Qed.
End filtro_chave.

Lemma adicionar_artista_tabela (nome : string) (bd : BancoDeDadosMusica) :
  adicionar_artista nome bd
  = ((obter_ou_criar nome (artistas bd)).1,
     com_artistas (obter_ou_criar nome (artistas bd)).2 bd).
Proof.
  unfold adicionar_artista, obter_ou_criar.
  destruct (insert_nome nome (artistas bd)) as [[i t]|[]]; destruct bd; done.
Qed.

Lemma adicionar_genero_tabela (nome : string) (bd : BancoDeDadosMusica) :
  adicionar_genero nome bd
  = ((obter_ou_criar nome (generos bd)).1,
     com_generos (obter_ou_criar nome (generos bd)).2 bd).
Proof.
  unfold adicionar_genero, obter_ou_criar.
  destruct (insert_nome nome (generos bd)) as [[i t]|[]]; destruct bd; done.
Qed.

Lemma obter_ou_criar_presente (nome : string) (t : Tabela LinhaNome) (r : LinhaNome) :
  NoDup (nomes t) → r ∈ linhas t → ln_nome r = nome →
  obter_ou_criar nome t = (Some (ln_id r), t).
Proof.
  intros Hnd Hr <-. unfold obter_ou_criar, insert_nome.
  rewrite decide_True by (by apply list_elem_of_fmap_2).
  unfold select_id_por_nome. by rewrite (filter_chave_unica ln_nome).
Qed.

Lemma obter_ou_criar_ausente (nome : string) (t : Tabela LinhaNome) :
  nome ∉ nomes t →
  obter_ou_criar nome t
  = (Some (proximo_rowid (ids_nome t) (seq t)),
     {| linhas := linhas t ++ [{| ln_id := proximo_rowid (ids_nome t) (seq t);
                                  ln_nome := nome |}];
        seq := proximo_rowid (ids_nome t) (seq t) |}).
Proof.
  intros Hn. unfold obter_ou_criar, insert_nome. by rewrite decide_False.
Qed.

(** Calling get-or-create twice on a table whose names are distinct: both
    calls return the same id, the second changes nothing, and the table
    then holds exactly one row of that name, which carries that id. *)
Lemma obter_ou_criar_duas_vezes (nome : string) (t : Tabela LinhaNome) :
  NoDup (nomes t) →
  ∃ i t1,
    obter_ou_criar nome t = (Some i, t1)
    ∧ obter_ou_criar nome t1 = (Some i, t1)
    ∧ filter (λ r, ln_nome r = nome) (linhas t1) = [{| ln_id := i; ln_nome := nome |}]
    ∧ NoDup (nomes t1).
Proof.
  intros Hnd. destruct (decide (nome ∈ nomes t)) as [Hin|Hout].
  - apply list_elem_of_fmap in Hin as (r & Hr & Hin).
    exists (ln_id r), t.
    rewrite (obter_ou_criar_presente nome t r) by done.
    repeat split; [|done].
    rewrite Hr, (filter_chave_unica ln_nome) by done. by destruct r.
  - set (i := proximo_rowid (ids_nome t) (seq t)).
    set (r := {| ln_id := i; ln_nome := nome |}).
    assert (Hnd1 : NoDup (nomes {| linhas := linhas t ++ [r]; seq := i |})).
    { unfold nomes; simpl. rewrite fmap_app. apply NoDup_app.
      split; [done|]. split; [|apply NoDup_singleton].
      intros x Hx ->%list_elem_of_singleton. by apply Hout. }
    eexists i, _. split; [by apply obter_ou_criar_ausente|].
    split; [|split; [|done]].
    + rewrite (obter_ou_criar_presente nome _ r); [done|done| |done].
      simpl. apply elem_of_app. right. by apply list_elem_of_singleton.
    + simpl. rewrite filter_app, (filter_chave_ausente ln_nome) by done.
      by rewrite filter_cons_True.
Qed.

Lemma obter_ou_criar_ids (nome : string) (t : Tabela LinhaNome) :
  NoDup (ids_nome t) → NoDup (nomes t) →
  NoDup (ids_nome (obter_ou_criar nome t).2) ∧ NoDup (nomes (obter_ou_criar nome t).2).
Proof.
  intros Hids Hnd. destruct (decide (nome ∈ nomes t)) as [Hin|Hout].
  - apply list_elem_of_fmap in Hin as (r & Hr & Hin).
    by rewrite (obter_ou_criar_presente nome t r).
  - rewrite obter_ou_criar_ausente by done. unfold ids_nome, nomes; simpl.
    rewrite !fmap_app. split; apply NoDup_app; simpl.
    + split; [done|]. split; [|apply NoDup_singleton].
      intros x Hx ->%list_elem_of_singleton.
      by apply (proximo_rowid_fresco (ids_nome t) (seq t)).
    + split; [done|]. split; [|apply NoDup_singleton].
      intros x Hx ->%list_elem_of_singleton. by apply Hout.
Qed.

(** C2: adding the same artist name twice returns the same id both times,
    the second call changes nothing, and the table then holds exactly one
    row with that name (the row of the id returned); the genre and track
    tables are untouched.  [adicionar_genero] does the same on its own
    table. *)
Theorem adicionar_duas_vezes (n : string) (bd : BancoDeDadosMusica) :
  NoDup (nomes (artistas bd)) →
  NoDup (nomes (generos bd)) →
  (∃ i bd1,
      adicionar_artista n bd = (Some i, bd1)
      ∧ adicionar_artista n bd1 = (Some i, bd1)
      ∧ filter (λ r, ln_nome r = n) (linhas (artistas bd1))
        = [{| ln_id := i; ln_nome := n |}]
      ∧ generos bd1 = generos bd ∧ musicas bd1 = musicas bd)
  ∧ (∃ i bd1,
      adicionar_genero n bd = (Some i, bd1)
      ∧ adicionar_genero n bd1 = (Some i, bd1)
      ∧ filter (λ r, ln_nome r = n) (linhas (generos bd1))
        = [{| ln_id := i; ln_nome := n |}]
      ∧ artistas bd1 = artistas bd ∧ musicas bd1 = musicas bd).
Proof.
  intros Ha Hg. split.
  - destruct (obter_ou_criar_duas_vezes n (artistas bd) Ha)
      as (i & t1 & H1 & H2 & H3 & _).
    exists i, (com_artistas t1 bd).
    rewrite !adicionar_artista_tabela; simpl. rewrite H1; simpl. rewrite H2.
    done.
  - destruct (obter_ou_criar_duas_vezes n (generos bd) Hg)
      as (i & t1 & H1 & H2 & H3 & _).
    exists i, (com_generos t1 bd).
    rewrite !adicionar_genero_tabela; simpl. rewrite H1; simpl. rewrite H2.
    done.
Qed.

Lemma adicionar_duas_vezes_exemplo :
  let bd := db catalogo_busca in
  (NoDup (nomes (artistas bd)) ∧ NoDup (nomes (generos bd)))
  ∧ (∃ i bd1,
      adicionar_artista "Abba" bd = (Some i, bd1)
      ∧ adicionar_artista "Abba" bd1 = (Some i, bd1)
      ∧ filter (λ r, ln_nome r = "Abba") (linhas (artistas bd1))
        = [{| ln_id := i; ln_nome := "Abba" |}]
      ∧ generos bd1 = generos bd ∧ musicas bd1 = musicas bd)
  ∧ (∃ i bd1,
      adicionar_genero "Abba" bd = (Some i, bd1)
      ∧ adicionar_genero "Abba" bd1 = (Some i, bd1)
      ∧ filter (λ r, ln_nome r = "Abba") (linhas (generos bd1))
        = [{| ln_id := i; ln_nome := "Abba" |}]
      ∧ artistas bd1 = artistas bd ∧ musicas bd1 = musicas bd).
Proof.
  intros bd.
  assert (Ha : NoDup (nomes (artistas bd))) by (by apply (bool_decide_unpack _)).
  assert (Hg : NoDup (nomes (generos bd))) by (by apply (bool_decide_unpack _)).
  split; [done|]. exact (adicionar_duas_vezes "Abba" bd Ha Hg).
Defined.

(** ** The constraints of the engine hold in every store *)

Lemma integro_banco_novo : integro banco_novo.
Proof. split; apply NoDup_nil_2. Qed.

Lemma adicionar_artista_integro (nome : string) (bd : BancoDeDadosMusica) :
  integro bd → integro (adicionar_artista nome bd).2.
Proof.
  intros [? ? ? ? ? ?]. rewrite adicionar_artista_tabela; simpl.
  destruct (obter_ou_criar_ids nome (artistas bd)) as [? ?]; [done..|].
  by split.
Qed.

Lemma adicionar_genero_integro (nome : string) (bd : BancoDeDadosMusica) :
  integro bd → integro (adicionar_genero nome bd).2.
Proof.
  intros [? ? ? ? ? ?]. rewrite adicionar_genero_tabela; simpl.
  destruct (obter_ou_criar_ids nome (generos bd)) as [? ?]; [done..|].
  by split.
Qed.

Lemma adicionar_musica_url_repetida (a : Z) (t u : string) (g : Z)
    (bd : BancoDeDadosMusica) :
  u ∈ urls (musicas bd) → adicionar_musica a t u g bd = (None, bd).
Proof.
  intros Hu. unfold adicionar_musica, insert_musica. by rewrite decide_True.
Qed.

Lemma adicionar_musica_integro (a : Z) (t u : string) (g : Z)
    (bd : BancoDeDadosMusica) :
  integro bd → integro (adicionar_musica a t u g bd).2.
Proof.
  intros Hbd. unfold adicionar_musica, insert_musica.
  destruct (decide (u ∈ urls (musicas bd))) as [|Hu]; [done|].
  destruct (foreign_keys (conexao bd) && negb (pais_existem bd a g)); [done|].
  destruct Hbd as [? ? ? ? Hids Hurls]. split; simpl; try done.
  - unfold ids_musica; simpl. rewrite fmap_app. apply NoDup_app.
    split; [done|]. split; [|apply NoDup_singleton].
    intros x Hx ->%list_elem_of_singleton.
    by apply (proximo_rowid_fresco (ids_musica (musicas bd)) (seq (musicas bd))).
  - unfold urls; simpl. rewrite fmap_app. apply NoDup_app.
    split; [done|]. split; [|apply NoDup_singleton].
    intros x Hx ->%list_elem_of_singleton. by apply Hu.
Qed.

Lemma atribuir_todas_id (sets : list Atribuicao) (r : LinhaMusica) :
  lm_id (atribuir_todas sets r) = lm_id r.
Proof.
  unfold atribuir_todas. revert r.
  induction sets as [|a sets IH]; intros r; [done|].
  simpl. rewrite IH. by destruct a.
Qed.

(** The rows after an [UPDATE ... WHERE id = i] that met no conflict keep
    their urls distinct. *)
Lemma update_urls_distintas (nova : LinhaMusica → LinhaMusica) (i : Z)
    (t : Tabela LinhaMusica) (l : list LinhaMusica) :
  (∀ r, r ∈ l → r ∈ linhas t) →
  NoDup (lm_id <$> l) → NoDup (lm_url <$> l) →
  (∀ r, r ∈ l → lm_id r = i → url_em_conflito i t r (nova r) = false) →
  NoDup (lm_url <$> ((λ r, if decide (lm_id r = i) then nova r else r) <$> l)).
Proof.
  set (g := λ r, if decide (lm_id r = i) then nova r else r).
  induction l as [|x l IH]; intros Hsub Hids Hurls Hok; [apply NoDup_nil_2|].
  rewrite !fmap_cons in *. apply NoDup_cons in Hids as [Hidx Hids].
  apply NoDup_cons in Hurls as [Hurlx Hurls].
  apply NoDup_cons. split.
  - intros Hin. apply list_elem_of_fmap in Hin as (y' & Hy' & Hin).
    apply list_elem_of_fmap in Hin as (y & -> & Hy).
    assert (Hxy : lm_id x ≠ lm_id y).
    { intros Heq. apply Hidx. rewrite Heq. by apply list_elem_of_fmap_2. }
    assert (Huxy : lm_url x ≠ lm_url y).
    { intros Heq. apply Hurlx. rewrite Heq. by apply list_elem_of_fmap_2. }
    assert (Hlivre : ∀ r o, r ∈ x :: l → o ∈ x :: l → lm_id r = i → lm_id o ≠ i →
                            lm_url (nova r) = lm_url o → lm_url r = lm_url o).
    { intros r o Hr Ho Hri Hoi Heq. specialize (Hok r Hr Hri).
      unfold url_em_conflito in Hok. apply andb_false_iff in Hok as [Hok|Hok].
      - apply bool_decide_eq_false in Hok.
        destruct (decide (lm_url (nova r) = lm_url r)) as [He|He]; [congruence|done].
      - apply bool_decide_eq_false in Hok. exfalso. apply Hok.
        apply Exists_exists. exists o. split; [by apply Hsub|done]. }
    unfold g in Hy'. repeat case_decide.
    + congruence.
    + apply Huxy. apply (Hlivre x y); [left|by right|done|done|done].
    + apply Huxy. symmetry. apply (Hlivre y x); [by right|left|done|done|done].
    + done.
  - apply IH; [|done|done|].
    + intros r Hr. apply Hsub. by right.
    + intros r Hr. apply Hok. by right.
Qed.

Lemma update_musica_integro (sets : list Atribuicao) (i : Z) (n : nat)
    (t' : Tabela LinhaMusica) (bd : BancoDeDadosMusica) :
  integro bd → update_musica sets i bd = Executado (n, t') →
  integro (com_musicas t' bd).
Proof.
  intros [? ? ? ? Hids Hurls] Hup. unfold update_musica in Hup.
  destruct (existsb _ _) eqn:Hconf; [done|].
  destruct (foreign_keys (conexao bd) && _); [done|].
  injection Hup as _ <-. split; simpl; try done.
  - unfold ids_musica; simpl. rewrite <-list_fmap_compose.
    erewrite list_fmap_ext; [exact Hids|].
    intros j r _. simpl. case_decide; [apply atribuir_todas_id|done].
  - unfold urls; simpl.
    apply (update_urls_distintas _ i (musicas bd)); [done..|].
    intros r Hr Hri. apply not_true_is_false. intros Hc.
    apply not_true_iff_false in Hconf. apply Hconf.
    apply existsb_exists. exists r. split; [|done].
    apply list_elem_of_In, list_elem_of_filter. done.
Qed.

Lemma atualizar_musica_integro (i : Z) (t u : option string) (a g : option Z)
    (bd : BancoDeDadosMusica) :
  integro bd → integro (atualizar_musica i t u a g bd).2.
Proof.
  intros Hbd. unfold atualizar_musica.
  destruct (updates_de t u a g) as [|s sets]; [done|].
  destruct (update_musica (s :: sets) i bd) as [[n t']|e] eqn:Hup; [|done].
  simpl. by eapply update_musica_integro.
Qed.

Lemma deletar_musica_integro (i : Z) (bd : BancoDeDadosMusica) :
  integro bd → integro (deletar_musica i bd).2.
Proof.
  intros [? ? ? ? Hids Hurls]. unfold deletar_musica; simpl.
  split; simpl; try done.
  - eapply sublist_NoDup; [exact Hids|]. apply fmap_sublist, sublist_filter.
  - eapply sublist_NoDup; [exact Hurls|]. apply fmap_sublist, sublist_filter.
Qed.

Lemma aplicar_op_integro (op : Operacao) (bd : BancoDeDadosMusica) :
  integro bd → integro (aplicar_op op bd).
Proof.
  intros Hbd. destruct op; cbn [aplicar_op].
  - by apply adicionar_artista_integro.
  - by apply adicionar_genero_integro.
  - by apply adicionar_musica_integro.
  - by apply atualizar_musica_integro.
  - by apply deletar_musica_integro.
Qed.

Lemma alcancavel_integro (bd : BancoDeDadosMusica) : alcancavel bd → integro bd.
Proof.
  induction 1; [apply integro_banco_novo|by apply aplicar_op_integro].
Qed.

(** The store of the example catalogue is one a program gets to: the six
    calls of the store that the two additions make. *)
Lemma bd_exemplo_alcancavel : alcancavel bd_exemplo.
Proof.
  change (alcancavel
    (aplicar_op (OpAdicionarMusica 2 "X" "u2" 1)
      (aplicar_op (OpAdicionarGenero "G")
        (aplicar_op (OpAdicionarArtista "A")
          (aplicar_op (OpAdicionarMusica 1 "Y" "u1" 1)
            (aplicar_op (OpAdicionarGenero "G")
              (aplicar_op (OpAdicionarArtista "B") banco_novo))))))).
  repeat apply alcancavel_op. apply alcancavel_novo.
Qed.

(** ** Tracks: insertion *)

(** No method of the store turns the pragma on. *)
Lemma alcancavel_foreign_keys (bd : BancoDeDadosMusica) :
  alcancavel bd → foreign_keys (conexao bd) = false.
Proof.
  induction 1 as [|op bd _ IH]; [done|]. destruct op; cbn [aplicar_op].
  - by rewrite adicionar_artista_tabela.
  - by rewrite adicionar_genero_tabela.
  - unfold adicionar_musica.
    by destruct (insert_musica _ _ _ _ bd) as [[? ?]|[]].
  - unfold atualizar_musica. destruct (updates_de _ _ _ _); [done|].
    by destruct (update_musica _ _ bd) as [[? ?]|].
  - done.
Qed.

(** With the pragma off, a track whose url is new is stored whatever its
    [artista_id] and [genero_id] are. *)
Lemma adicionar_musica_ignora_chaves (a : Z) (t u : string) (g : Z)
    (bd : BancoDeDadosMusica) :
  foreign_keys (conexao bd) = false → u ∉ urls (musicas bd) →
  adicionar_musica a t u g bd
  = (Some (proximo_rowid (ids_musica (musicas bd)) (seq (musicas bd))),
     com_musicas
       {| linhas := linhas (musicas bd) ++
            [{| lm_id := proximo_rowid (ids_musica (musicas bd)) (seq (musicas bd));
                lm_artista_id := a; lm_titulo := t; lm_url := u;
                lm_genero_id := g |}];
          seq := proximo_rowid (ids_musica (musicas bd)) (seq (musicas bd)) |}
       bd).
Proof.
  intros Hfk Hu. unfold adicionar_musica, insert_musica.
  rewrite decide_False by done. by rewrite Hfk.
Qed.

(** C1 (the code at the failing input): on a new database, where no artist
    and no genre exists, [adicionar_musica 7 "T" "u" 9] returns the id [1]
    and stores the row with its two dangling references. *)
Theorem adicionar_musica_referencia_pendente :
  obter_artista_por_id 7 banco_novo = None
  ∧ obter_genero_por_id 9 banco_novo = None
  ∧ adicionar_musica 7 "T" "u" 9 banco_novo
    = (Some 1%Z,
       com_musicas
         {| linhas := [{| lm_id := 1; lm_artista_id := 7; lm_titulo := "T";
                          lm_url := "u"; lm_genero_id := 9 |}];
            seq := 1 |}
         banco_novo).
Proof. done. Qed.

(** C3: in a store that meets the engine's constraints the urls of the
    tracks are pairwise distinct, every writing method leaves a store that
    meets them again, and [adicionar_musica] with a url some track already
    has returns [None] and leaves the whole store as it was. *)
Theorem url_unica (bd : BancoDeDadosMusica) :
  integro bd →
  NoDup (urls (musicas bd))
  ∧ (∀ op, integro (aplicar_op op bd) ∧ NoDup (urls (musicas (aplicar_op op bd))))
  ∧ (∀ a t u g, u ∈ urls (musicas bd) → adicionar_musica a t u g bd = (None, bd)).
Proof.
  intros Hbd. split; [apply Hbd|]. split.
  - intros op. pose proof (aplicar_op_integro op bd Hbd) as H.
    split; [done|apply H].
  - intros a t u g. apply adicionar_musica_url_repetida.
Qed.

Lemma url_unica_exemplo :
  let bd := bd_exemplo in
  integro bd
  ∧ "u1" ∈ urls (musicas bd)
  ∧ adicionar_musica 2 "Z" "u1" 3 bd = (None, bd)
  ∧ (∀ op, integro (aplicar_op op bd) ∧ NoDup (urls (musicas (aplicar_op op bd)))).
Proof.
  intros bd.
  assert (Hbd : integro bd) by apply alcancavel_integro, bd_exemplo_alcancavel.
  assert (Hu : "u1" ∈ urls (musicas bd)) by (by apply (bool_decide_unpack _)).
  destruct (url_unica bd Hbd) as (_ & Hops & Hrej).
  split; [done|]. split; [done|]. split; [|done].
  exact (Hrej 2%Z "Z" "u1" 3%Z Hu).
Defined.

(** ** Tracks: update *)

Lemma texto_dado_Some (arg : option string) (v : string) :
  texto_dado arg = Some v → v ≠ "".
Proof. destruct arg as [s|]; simpl; [|done]. case_decide; congruence. Qed.

Lemma inteiro_dado_Some (arg : option Z) (v : Z) :
  inteiro_dado arg = Some v → v ≠ 0%Z.
Proof. destruct arg as [s|]; simpl; [|done]. case_decide; congruence. Qed.

Lemma updates_de_dadas (titulo url : option string) (artista_id genero_id : option Z) :
  Forall dada (updates_de titulo url artista_id genero_id).
Proof.
  unfold updates_de. repeat apply Forall_app_2.
  - destruct (texto_dado titulo) eqn:E; [|done].
    apply Forall_singleton. by eapply texto_dado_Some.
  - destruct (texto_dado url) eqn:E; [|done].
    apply Forall_singleton. by eapply texto_dado_Some.
  - destruct (inteiro_dado artista_id) eqn:E; [|done].
    apply Forall_singleton. by eapply inteiro_dado_Some.
  - destruct (inteiro_dado genero_id) eqn:E; [|done].
    apply Forall_singleton. by eapply inteiro_dado_Some.
Qed.

(** A field that is empty (or zero) after the assignments was so before. *)
Lemma atribuir_todas_dadas (sets : list Atribuicao) (r : LinhaMusica) :
  Forall dada sets →
  (lm_titulo (atribuir_todas sets r) = "" → lm_titulo r = "")
  ∧ (lm_url (atribuir_todas sets r) = "" → lm_url r = "")
  ∧ (lm_artista_id (atribuir_todas sets r) = 0%Z → lm_artista_id r = 0%Z)
  ∧ (lm_genero_id (atribuir_todas sets r) = 0%Z → lm_genero_id r = 0%Z).
Proof.
  unfold atribuir_todas. intros Hsets. revert r.
  induction Hsets as [|a sets Ha _ IH]; intros r; [done|].
  simpl. destruct (IH (atribuir r a)) as (H1 & H2 & H3 & H4).
  destruct a; simpl in *; repeat split; intros H; auto; by exfalso; auto.
Qed.

(** C5: a call of [atualizar_musica] whose four fields are each left out,
    empty or zero returns [False] and leaves the store as it was; and after
    any call at all, a track whose title or url is empty, or whose artist or
    genre id is zero, already had that field so before the call. *)
Theorem atualizar_musica_sem_campos (musica_id : Z) (titulo url : option string)
    (artista_id genero_id : option Z) (bd : BancoDeDadosMusica) :
  ((titulo = None ∨ titulo = Some "") →
   (url = None ∨ url = Some "") →
   (artista_id = None ∨ artista_id = Some 0%Z) →
   (genero_id = None ∨ genero_id = Some 0%Z) →
   atualizar_musica musica_id titulo url artista_id genero_id bd = (false, bd))
  ∧ (∀ r',
       r' ∈ linhas (musicas (atualizar_musica musica_id titulo url
                               artista_id genero_id bd).2) →
       ∃ r, r ∈ linhas (musicas bd) ∧ lm_id r = lm_id r'
            ∧ (lm_titulo r' = "" → lm_titulo r = "")
            ∧ (lm_url r' = "" → lm_url r = "")
            ∧ (lm_artista_id r' = 0%Z → lm_artista_id r = 0%Z)
            ∧ (lm_genero_id r' = 0%Z → lm_genero_id r = 0%Z)).
Proof.
  split.
  - by intros [-> | ->] [-> | ->] [-> | ->] [-> | ->].
  - intros r'. unfold atualizar_musica.
    pose proof (updates_de_dadas titulo url artista_id genero_id) as Hdadas.
    destruct (updates_de titulo url artista_id genero_id) as [|s sets] eqn:Hup.
    { intros Hr'. by exists r'. }
    destruct (update_musica (s :: sets) musica_id bd) as [[n t']|e] eqn:Hexec.
    2:{ intros Hr'. by exists r'. }
    unfold update_musica in Hexec.
    destruct (existsb _ _); [done|]. destruct (_ && _); [done|].
    injection Hexec as _ <-. cbn [snd com_musicas musicas linhas].
    intros (r & -> & Hr)%list_elem_of_fmap. exists r. split; [done|].
    case_decide; [|done].
    split; [exact (eq_sym (atribuir_todas_id (s :: sets) r))|].
    exact (atribuir_todas_dadas (s :: sets) r Hdadas).
Qed.

Lemma atualizar_musica_sem_campos_exemplo :
  let bd := bd_exemplo in
  atualizar_musica 1 (Some "") None (Some 0%Z) None bd = (false, bd).
Proof.
  intros bd.
  apply (atualizar_musica_sem_campos 1 (Some "") None (Some 0%Z) None bd);
    [by right|by left|by right|by left].
Defined.

Lemma existsb_falso {A} (f : A → bool) (l : list A) :
  (∀ x, x ∈ l → f x = false) → existsb f l = false.
Proof.
  induction l as [|x l IH]; intros H; [done|]. simpl.
  rewrite (H x) by left. apply IH. intros y Hy. apply H. by right.
Qed.

(** C6: for a track id that exists and a title [t] that is not empty,
    [atualizar_musica] with only the title given returns [True]; the row of
    that id gets the title [t] and keeps its url, artist id and genre id,
    every other row of [musicas] is as before, and so are the other two
    tables and the id counter. *)
Theorem atualizar_so_titulo (musica_id : Z) (t : string) (bd : BancoDeDadosMusica) :
  musica_id ∈ ids_musica (musicas bd) → t ≠ "" →
  atualizar_musica musica_id (Some t) None None None bd
  = (true,
     com_musicas
       {| linhas :=
            (λ r, if decide (lm_id r = musica_id)
                  then {| lm_id := lm_id r; lm_artista_id := lm_artista_id r;
                          lm_titulo := t; lm_url := lm_url r;
                          lm_genero_id := lm_genero_id r |}
                  else r) <$> linhas (musicas bd);
          seq := seq (musicas bd) |}
       bd).
Proof.
  intros Hid Ht. unfold atualizar_musica, updates_de. simpl.
  rewrite decide_False by done. simpl. unfold update_musica.
  rewrite existsb_falso; cycle 1.
  { intros r _. apply andb_false_iff. left.
    apply bool_decide_eq_false. intros H. by apply H. }
  rewrite (existsb_falso (λ r, pai_em_falta bd r _)); cycle 1.
  { intros r _. apply orb_false_iff.
    split; apply andb_false_iff; left; apply bool_decide_eq_false;
      intros H; by apply H. }
  rewrite andb_false_r. f_equal.
  apply bool_decide_eq_true.
  apply list_elem_of_fmap in Hid as (r & Hr & Hin).
  assert (r ∈ filter (λ r, lm_id r = musica_id) (linhas (musicas bd))) as Hf
    by (by apply list_elem_of_filter).
  destruct (filter _ _); [by apply not_elem_of_nil in Hf|simpl; lia].
Qed.

Lemma atualizar_so_titulo_exemplo :
  let bd := bd_exemplo in
  atualizar_musica 1 (Some "Z") None None None bd
  = (true,
     com_musicas
       {| linhas := [{| lm_id := 1; lm_artista_id := 1; lm_titulo := "Z";
                        lm_url := "u1"; lm_genero_id := 1 |};
                     {| lm_id := 2; lm_artista_id := 2; lm_titulo := "X";
                        lm_url := "u2"; lm_genero_id := 1 |}];
          seq := 2 |}
       bd).
Proof.
  intros bd.
  assert (Hid : 1%Z ∈ ids_musica (musicas bd)) by (by apply (bool_decide_unpack _)).
  assert (Ht : "Z" ≠ "") by done.
  exact (atualizar_so_titulo 1 "Z" bd Hid Ht).
Defined.

(** ** Tracks: lookup and deletion *)

Section filtro_total.
Context {A : Type} (P : A → Prop) `{∀ x, Decision (P x)}.

Lemma filter_todos (l : list A) : (∀ x, x ∈ l → P x) → filter P l = l.
Proof.
  induction l as [|x l IH]; intros Hl; [done|].
  rewrite filter_cons_True by (apply Hl; left).
  rewrite IH; [done|]. intros y Hy. apply Hl. by right.
Qed.

Lemma filter_nenhum (l : list A) : (∀ x, x ∈ l → ¬ P x) → filter P l = [].
Proof.
  induction l as [|x l IH]; intros Hl; [done|].
  rewrite filter_cons_False by (apply Hl; left).
  apply IH. intros y Hy. apply Hl. by right.
Qed.
End filtro_total.

Lemma juntar_id (ta tg : Tabela LinhaNome) (m : LinhaMusica) (d : MusicaDict) :
  d ∈ juntar ta tg m → d_id d = lm_id m.
Proof.
  unfold juntar. intros (a & Hd & _)%list_elem_of_bind.
  apply list_elem_of_bind in Hd as (g & Hd & _).
  by apply list_elem_of_singleton in Hd as ->.
Qed.

(** Selecting the joined rows of one id selects the rows of [musicas] of
    that id first. *)
Lemma filter_juncao_id (ta tg : Tabela LinhaNome) (i : Z) (l : list LinhaMusica) :
  filter (λ d, d_id d = i) (l ≫= juntar ta tg)
  = filter (λ m, lm_id m = i) l ≫= juntar ta tg.
Proof.
  induction l as [|m l IH]; [done|].
  rewrite bind_cons, filter_app, IH, filter_cons.
  case_decide as Hm.
  - rewrite bind_cons. f_equal. apply filter_todos.
    intros d Hd. by rewrite (juntar_id ta tg m d).
  - rewrite filter_nenhum; [done|].
    intros d Hd. by rewrite (juntar_id ta tg m d).
Qed.

Lemma obter_musica_por_id_linhas (i : Z) (bd : BancoDeDadosMusica) :
  obter_musica_por_id i bd
  = fetchone (filter (λ m, lm_id m = i) (linhas (musicas bd))
              ≫= juntar (artistas bd) (generos bd)).
Proof. unfold obter_musica_por_id, juncao. by rewrite filter_juncao_id. Qed.

(** C7: [deletar_musica] on an id that no track has returns [False] and
    leaves the store as it was.  On the id of a track it returns [True] and
    takes exactly that row out of [musicas], the other rows staying in their
    order and the other tables as they were; [obter_musica_por_id] then
    returns [None] for that id and what it returned before for every other
    id. *)
Theorem deletar_musica_correto (musica_id : Z) (bd : BancoDeDadosMusica) :
  NoDup (ids_musica (musicas bd)) →
  (musica_id ∉ ids_musica (musicas bd) → deletar_musica musica_id bd = (false, bd))
  ∧ (musica_id ∈ ids_musica (musicas bd) →
     ∃ bd',
       deletar_musica musica_id bd = (true, bd')
       ∧ conexao bd' = conexao bd
       ∧ artistas bd' = artistas bd
       ∧ generos bd' = generos bd
       ∧ (∃ l1 r l2,
             lm_id r = musica_id
             ∧ linhas (musicas bd) = l1 ++ r :: l2
             ∧ linhas (musicas bd') = l1 ++ l2)
       ∧ obter_musica_por_id musica_id bd' = None
       ∧ (∀ j, j ≠ musica_id →
               obter_musica_por_id j bd' = obter_musica_por_id j bd)).
Proof.
  intros Hnd. split.
  - intros Hout. unfold deletar_musica, delete_musica.
    rewrite (filter_chave_ausente lm_id) by done.
    rewrite (filter_chave_diferente lm_id) by done.
    by destruct bd as [c ta tg [l s]].
  - intros Hin. eexists. split.
    { unfold deletar_musica, delete_musica. f_equal.
      apply bool_decide_eq_true.
      apply list_elem_of_fmap in Hin as (r & Hr & Hin).
      assert (r ∈ filter (λ r, lm_id r = musica_id) (linhas (musicas bd))) as Hf
        by (by apply list_elem_of_filter).
      destruct (filter _ _); [by apply not_elem_of_nil in Hf|simpl; lia]. }
    do 3 (split; [done|]). split; [|split].
    + apply list_elem_of_fmap in Hin as (r & Hr & Hin).
      apply list_elem_of_split in Hin as (l1 & l2 & Hl).
      exists l1, r, l2. split; [done|]. split; [done|]. simpl.
      unfold ids_musica in Hnd. rewrite Hl in Hnd |- *.
      rewrite fmap_app, fmap_cons in Hnd.
      apply NoDup_app in Hnd as (_ & Hl1 & Hl2).
      apply NoDup_cons in Hl2 as [Hl2 _].
      rewrite filter_app, filter_cons_False by (intros H; by apply H).
      rewrite !(filter_chave_diferente lm_id); [done|by rewrite Hr|].
      intros H1. apply (Hl1 _ H1). rewrite Hr. left.
    + rewrite obter_musica_por_id_linhas. simpl.
      rewrite filter_nenhum; [done|].
      intros m [Hm _]%list_elem_of_filter Hid. by apply Hm.
    + intros j Hj. rewrite !obter_musica_por_id_linhas. simpl.
      rewrite list_filter_filter. do 2 f_equal.
      apply list_filter_iff. intros m. split; [by intros [? ?]|].
      intros Hm. split; [done|]. by rewrite Hm.
Qed.

Lemma deletar_musica_exemplo :
  let bd := bd_exemplo in
  deletar_musica 7 bd = (false, bd)
  ∧ ∃ bd',
       deletar_musica 1 bd = (true, bd')
       ∧ conexao bd' = conexao bd
       ∧ artistas bd' = artistas bd
       ∧ generos bd' = generos bd
       ∧ (∃ l1 r l2,
             lm_id r = 1%Z
             ∧ linhas (musicas bd) = l1 ++ r :: l2
             ∧ linhas (musicas bd') = l1 ++ l2)
       ∧ obter_musica_por_id 1 bd' = None
       ∧ (∀ j, j ≠ 1%Z → obter_musica_por_id j bd' = obter_musica_por_id j bd).
Proof.
  intros bd.
  assert (Hnd : NoDup (ids_musica (musicas bd))) by (by apply (bool_decide_unpack _)).
  assert (H7 : 7%Z ∉ ids_musica (musicas bd)) by (by apply (bool_decide_unpack _)).
  assert (H1 : 1%Z ∈ ids_musica (musicas bd)) by (by apply (bool_decide_unpack _)).
  split.
  - exact (proj1 (deletar_musica_correto 7 bd Hnd) H7).
  - exact (proj2 (deletar_musica_correto 1 bd Hnd) H1).
Defined.

(** ** The order of texts *)

Lemma ascii_compare_refl (a : ascii) : Ascii.compare a a = Eq.
Proof. apply N.compare_refl. Qed.

Lemma ascii_compare_lt_trans (a b c : ascii) :
  Ascii.compare a b = Lt → Ascii.compare b c = Lt → Ascii.compare a c = Lt.
Proof. unfold Ascii.compare. rewrite !N.compare_lt_iff. lia. Qed.

Lemma compare_refl (s : string) : String.compare s s = Eq.
Proof. induction s as [|a s IH]; [done|]. simpl. by rewrite ascii_compare_refl. Qed.

Lemma compare_lt_trans (s1 s2 s3 : string) :
  String.compare s1 s2 = Lt → String.compare s2 s3 = Lt → String.compare s1 s3 = Lt.
Proof.
  revert s2 s3. induction s1 as [|a s1 IH]; intros [|b s2] [|c s3]; simpl; try done.
  destruct (Ascii.compare a b) eqn:Eab; [|destruct (Ascii.compare b c) eqn:Ebc|done].
  - apply Ascii.compare_eq_iff in Eab as ->.
    destruct (Ascii.compare b c); [apply IH|done|done].
  - apply Ascii.compare_eq_iff in Ebc as ->. by rewrite Eab.
  - by rewrite (ascii_compare_lt_trans a b c).
  - done.
Qed.

Lemma compare_gt_lt (s1 s2 : string) :
  String.compare s1 s2 = Gt → String.compare s2 s1 = Lt.
Proof. rewrite (String.compare_antisym s2 s1). by intros ->. Qed.

Lemma compare_eq (s1 s2 : string) : String.compare s1 s2 = Eq → s1 = s2.
Proof. apply String.compare_eq_iff. Qed.

#[global] Instance texto_le_total : Total texto_le.
Proof.
  intros s1 s2. unfold texto_le.
  destruct (String.compare s1 s2) eqn:E; [by left|by left|].
  right. by rewrite (compare_gt_lt s1 s2).
Qed.

#[global] Instance texto_le_trans : Transitive texto_le.
Proof.
  intros s1 s2 s3. unfold texto_le.
  destruct (String.compare s1 s2) eqn:E12; [| |done].
  - by apply compare_eq in E12 as ->.
  - destruct (String.compare s2 s3) eqn:E23; [| |done].
    + apply compare_eq in E23 as ->. by rewrite E12.
    + by rewrite (compare_lt_trans s1 s2 s3).
Qed.

#[global] Instance ordem_artista_titulo_total : Total ordem_artista_titulo.
Proof.
  intros x y. unfold ordem_artista_titulo.
  destruct (String.compare (d_artista_nome x) (d_artista_nome y)) eqn:E.
  - apply compare_eq in E. rewrite E, compare_refl. apply texto_le_total.
  - by left.
  - right. by rewrite (compare_gt_lt _ _ E).
Qed.

#[global] Instance ordem_artista_titulo_trans : Transitive ordem_artista_titulo.
Proof.
  intros x y z. unfold ordem_artista_titulo.
  destruct (String.compare (d_artista_nome x) (d_artista_nome y)) eqn:Exy; [| |done].
  - apply compare_eq in Exy. rewrite Exy.
    destruct (String.compare (d_artista_nome y) (d_artista_nome z)); [|done|done].
    apply texto_le_trans.
  - destruct (String.compare (d_artista_nome y) (d_artista_nome z)) eqn:Eyz;
      [| |done]; intros _ _.
    + apply compare_eq in Eyz. by rewrite <-Eyz, Exy.
    + by rewrite (compare_lt_trans _ _ _ Exy Eyz).
Qed.

#[global] Instance ordem_titulo_total : Total ordem_titulo.
Proof. intros x y. apply texto_le_total. Qed.

#[global] Instance ordem_titulo_trans : Transitive ordem_titulo.
Proof. intros x y z. apply texto_le_trans. Qed.

(** [ORDER BY] returns the rows it was given, in ascending order. *)
Lemma order_by_correto {A} (R : relation A) `{∀ x y, Decision (R x y)}
    `{!Total R, !Transitive R} (l : list A) :
  order_by R l ≡ₚ l ∧ StronglySorted R (order_by R l).
Proof.
  split; [apply merge_sort_Permutation|by apply StronglySorted_merge_sort].
Qed.

(** ** Listings *)

Lemma linha_de_dict_juncao (m : LinhaMusica) (a g : LinhaNome) :
  linha_de_dict (linha_juncao m a g) = m.
Proof. by destruct m. Qed.

(** With distinct ids in [artistas] and [generos], a track joins with one
    row when its artist and its genre exist, and with none otherwise. *)
Lemma juntar_linha (bd : BancoDeDadosMusica) (m : LinhaMusica) :
  NoDup (ids_nome (artistas bd)) → NoDup (ids_nome (generos bd)) →
  linha_de_dict <$> juntar (artistas bd) (generos bd) m
  = if pais_existem bd (lm_artista_id m) (lm_genero_id m) then [m] else [].
Proof.
  intros Ha Hg. unfold juntar, pais_existem.
  destruct (decide (lm_artista_id m ∈ ids_nome (artistas bd))) as [Hia|Hia].
  - rewrite (bool_decide_eq_true_2 _ Hia).
    apply list_elem_of_fmap in Hia as (a & Hida & Hina).
    rewrite Hida, (filter_chave_unica ln_id) by done.
    rewrite bind_singleton.
    destruct (decide (lm_genero_id m ∈ ids_nome (generos bd))) as [Hig|Hig].
    + rewrite (bool_decide_eq_true_2 _ Hig).
      apply list_elem_of_fmap in Hig as (g & Hidg & Hing).
      rewrite Hidg, (filter_chave_unica ln_id) by done.
      rewrite bind_singleton. simpl. by rewrite linha_de_dict_juncao.
    + rewrite (bool_decide_eq_false_2 _ Hig).
      by rewrite (filter_chave_ausente ln_id _ _ Hig).
  - rewrite (bool_decide_eq_false_2 _ Hia).
    by rewrite (filter_chave_ausente ln_id _ _ Hia).
Qed.

Lemma juncao_linhas (bd : BancoDeDadosMusica) :
  NoDup (ids_nome (artistas bd)) → NoDup (ids_nome (generos bd)) →
  linha_de_dict <$> juncao bd
  = filter (λ m, pais_existem bd (lm_artista_id m) (lm_genero_id m))
           (linhas (musicas bd)).
Proof.
  intros Ha Hg. unfold juncao.
  induction (linhas (musicas bd)) as [|m l IH]; [done|].
  rewrite bind_cons, fmap_app, IH, juntar_linha by done.
  rewrite filter_cons.
  by destruct (pais_existem bd (lm_artista_id m) (lm_genero_id m)).
Qed.

(** The names in a joined row are those of the artist and of the genre the
    row's ids refer to. *)
Lemma juncao_nomes (bd : BancoDeDadosMusica) (d : MusicaDict) :
  d ∈ juncao bd →
  {| ln_id := d_artista_id d; ln_nome := d_artista_nome d |} ∈ linhas (artistas bd)
  ∧ {| ln_id := d_genero_id d; ln_nome := d_genero_nome d |} ∈ linhas (generos bd).
Proof.
  unfold juncao, juntar. intros (m & Hd & _)%list_elem_of_bind.
  apply list_elem_of_bind in Hd as (a & Hd & [Ha Hina]%list_elem_of_filter).
  apply list_elem_of_bind in Hd as (g & Hd & [Hg Hing]%list_elem_of_filter).
  apply list_elem_of_singleton in Hd as ->. simpl.
  rewrite <-Ha, <-Hg. by destruct a, g.
Qed.

Lemma referencias_validas_filter (bd : BancoDeDadosMusica) :
  referencias_validas bd →
  filter (λ m, pais_existem bd (lm_artista_id m) (lm_genero_id m))
         (linhas (musicas bd))
  = linhas (musicas bd).
Proof.
  intros Hrefs. apply filter_todos. intros m Hm. by rewrite (Hrefs m Hm).
Qed.

(** C8 (as the code has it): in a store that meets the engine's constraints,
    [obter_todas_musicas] returns one joined row for each track whose artist
    and genre both exist, and for no other (so for every track, when every
    reference is valid); a joined row carries the names of the artist and of
    the genre its ids refer to; the rows come in ascending order of artist
    name, then title.  [obter_musicas_por_artista] and
    [obter_musicas_por_genero] return the rows of that artist (genre) among
    them, in ascending order of title.  After the tracks ["Y"] of ["B"] and
    ["X"] of ["A"] were added, the listing is ["X"] of ["A"], then ["Y"] of
    ["B"]. *)
Theorem listagens_ordenadas (bd : BancoDeDadosMusica) :
  integro bd →
  (linha_de_dict <$> obter_todas_musicas bd
   ≡ₚ filter (λ m, pais_existem bd (lm_artista_id m) (lm_genero_id m))
             (linhas (musicas bd)))
  ∧ (referencias_validas bd →
     linha_de_dict <$> obter_todas_musicas bd ≡ₚ linhas (musicas bd))
  ∧ (∀ d, d ∈ obter_todas_musicas bd →
          {| ln_id := d_artista_id d; ln_nome := d_artista_nome d |}
            ∈ linhas (artistas bd)
          ∧ {| ln_id := d_genero_id d; ln_nome := d_genero_nome d |}
              ∈ linhas (generos bd))
  ∧ StronglySorted ordem_artista_titulo (obter_todas_musicas bd)
  ∧ (∀ a, obter_musicas_por_artista a bd
          ≡ₚ filter (λ d, d_artista_id d = a) (obter_todas_musicas bd)
          ∧ StronglySorted ordem_titulo (obter_musicas_por_artista a bd))
  ∧ (∀ g, obter_musicas_por_genero g bd
          ≡ₚ filter (λ d, d_genero_id d = g) (obter_todas_musicas bd)
          ∧ StronglySorted ordem_titulo (obter_musicas_por_genero g bd))
  ∧ obter_todas_musicas bd_exemplo
    = [{| d_id := 2; d_artista_id := 2; d_titulo := "X"; d_url := "u2";
          d_genero_id := 1; d_artista_nome := "A"; d_genero_nome := "G" |};
       {| d_id := 1; d_artista_id := 1; d_titulo := "Y"; d_url := "u1";
          d_genero_id := 1; d_artista_nome := "B"; d_genero_nome := "G" |}].
Proof.
  intros Hbd.
  destruct (order_by_correto ordem_artista_titulo (juncao bd)) as [Hperm Hsort].
  fold (obter_todas_musicas bd) in Hperm, Hsort.
  assert (Hlinhas : linha_de_dict <$> obter_todas_musicas bd
                    ≡ₚ filter (λ m, pais_existem bd (lm_artista_id m) (lm_genero_id m))
                              (linhas (musicas bd))).
  { rewrite Hperm. rewrite juncao_linhas; [done|apply Hbd..]. }
  split; [done|]. split.
  { intros Hrefs. by rewrite Hlinhas, referencias_validas_filter. }
  split.
  { intros d Hd. apply juncao_nomes. by rewrite <-Hperm. }
  split; [done|]. split; [|split; [|done]].
  - intros a. rewrite Hperm. apply order_by_correto; apply _.
  - intros g. rewrite Hperm. apply order_by_correto; apply _.
Qed.

Lemma listagens_ordenadas_exemplo :
  let bd := bd_exemplo in
  integro bd
  ∧ referencias_validas bd
  ∧ linha_de_dict <$> obter_todas_musicas bd ≡ₚ linhas (musicas bd)
  ∧ StronglySorted ordem_artista_titulo (obter_todas_musicas bd).
Proof.
  intros bd.
  assert (Hbd : integro bd) by apply alcancavel_integro, bd_exemplo_alcancavel.
  assert (Hrefs : referencias_validas bd).
  { unfold referencias_validas. apply Forall_forall.
    by apply (bool_decide_unpack _). }
  destruct (listagens_ordenadas bd Hbd) as (_ & Htodas & _ & Hsort & _).
  split; [done|]. split; [done|]. split; [by apply Htodas|done].
Defined.

(** C8 (counterexample): on a new database [adicionar_musica 7 "T" "u" 9]
    stores a track, and the listing of all tracks is empty. *)
Lemma listagem_omite_musica :
  let bd := (adicionar_musica 7 "T" "u" 9 banco_novo).2 in
  alcancavel bd
  ∧ linhas (musicas bd)
    = [{| lm_id := 1; lm_artista_id := 7; lm_titulo := "T"; lm_url := "u";
          lm_genero_id := 9 |}]
  ∧ obter_todas_musicas bd = [].
Proof.
  split; [|done].
  apply (alcancavel_op (OpAdicionarMusica 7 "T" "u" 9)), alcancavel_novo.
Qed.

(** ** Search *)

Lemma like_curinga_final (s : string) : like "%" s = true.
Proof. induction s as [|c s IH]; [done|]. exact IH. Qed.

Lemma like_prefixo (t s : string) :
  sem_curingas t = true →
  like (t +:+ "%") s = comeca_por (minusculas t) (minusculas s).
Proof.
  revert s. induction t as [|c t IH]; intros s Ht.
  - rewrite like_curinga_final. by destruct s.
  - simpl in Ht. apply andb_true_iff in Ht as [Hc Ht].
    apply andb_true_iff in Hc as [Hc1 Hc2].
    apply negb_true_iff in Hc1, Hc2.
    change (String c t +:+ "%") with (String c (t +:+ "%")).
    cbn [like]. rewrite Hc1, Hc2.
    destruct s as [|d s]; [done|]. cbn [minusculas comeca_por]. by rewrite IH.
Qed.

Lemma like_contem (t s : string) :
  sem_curingas t = true →
  like ("%" +:+ t +:+ "%") s = contem (minusculas t) (minusculas s).
Proof.
  intros Ht. change ("%" +:+ t +:+ "%") with (String "%" (t +:+ "%")).
  induction s as [|d s IH].
  - cbn. rewrite like_prefixo by done. done.
  - change (like (String "%" (t +:+ "%")) (String d s))
      with (like (t +:+ "%") (String d s) || like (String "%" (t +:+ "%")) s).
    by rewrite IH, like_prefixo.
Qed.

Lemma comeca_por_correto (t s : string) :
  comeca_por t s = true ↔ ∃ suf, s = t +:+ suf.
Proof.
  revert s. induction t as [|c t IH]; intros s.
  - split; [by exists s|by destruct s].
  - destruct s as [|d s]; simpl.
    + split; [done|by intros [suf ?]].
    + rewrite andb_true_iff, IH, Ascii.eqb_eq. split.
      * intros [-> [suf ->]]. by exists suf.
      * intros [suf Hs]. injection Hs as -> ->. eauto.
Qed.

Lemma contem_correto (t s : string) :
  contem t s = true ↔ ∃ pre suf, s = pre +:+ t +:+ suf.
Proof.
  induction s as [|d s IH].
  - simpl. rewrite orb_false_r, comeca_por_correto. split.
    + intros [suf ->]. by exists "", suf.
    + intros (pre & suf & Hs). destruct pre; [by exists suf|done].
  - cbn [contem]. rewrite orb_true_iff, comeca_por_correto, IH. split.
    + intros [[suf ->]|(pre & suf & ->)]; [by exists "", suf|].
      by exists (String d pre), suf.
    + intros (pre & suf & Hs). destruct pre as [|c pre].
      * left. by exists suf.
      * right. injection Hs as -> ->. by exists pre, suf.
Qed.

Lemma minusculas_app (s1 s2 : string) :
  minusculas (s1 +:+ s2) = minusculas s1 +:+ minusculas s2.
Proof. induction s1 as [|c s1 IH]; [done|]. simpl. by rewrite IH. Qed.

Lemma minusculas_app_inv (s a b : string) :
  minusculas s = a +:+ b →
  ∃ s1 s2, s = s1 +:+ s2 ∧ minusculas s1 = a ∧ minusculas s2 = b.
Proof.
  revert s. induction a as [|c a IH]; intros s Hs.
  - by exists "", s.
  - destruct s as [|d s]; [done|]. simpl in Hs. injection Hs as Hc Hs.
    destruct (IH s Hs) as (s1 & s2 & -> & <- & <-).
    exists (String d s1), s2. simpl. by rewrite Hc.
Qed.

Lemma contem_sem_caixa (t s : string) :
  contem (minusculas t) (minusculas s) = true ↔ ocorre_sem_caixa t s.
Proof.
  rewrite contem_correto. unfold ocorre_sem_caixa. split.
  - intros (pre & suf & Hs).
    apply minusculas_app_inv in Hs as (s1 & s2 & -> & _ & Hs).
    apply minusculas_app_inv in Hs as (s3 & s4 & -> & Hs3 & _).
    by exists s1, s3, s4.
  - intros (pre & meio & suf & -> & Hm).
    exists (minusculas pre), (minusculas suf).
    by rewrite !minusculas_app, Hm.
Qed.

(** C9 (as the code has it): [buscar_musicas] returns the rows of the
    listing of all tracks whose title or artist name matches the [LIKE]
    pattern [%termo%], in ascending order of artist name, then title.  For a
    term that holds neither [%] nor [_], these are exactly the rows whose
    title or artist name contains the term, the case of the letters
    [A]-[Z] disregarded.  With the tracks of the spec's example stored, the
    term ["ab"] finds the track titled ["Abba Tribute"] and the track of the
    artist ["Abba"], and not the track ["Cde"] of ["Ghi"]. *)
Theorem buscar_musicas_correto (termo : string) (bd : BancoDeDadosMusica) :
  (buscar_musicas termo bd
   ≡ₚ filter (λ d, like ("%" +:+ termo +:+ "%") (d_titulo d)
                   || like ("%" +:+ termo +:+ "%") (d_artista_nome d))
             (obter_todas_musicas bd))
  ∧ StronglySorted ordem_artista_titulo (buscar_musicas termo bd)
  ∧ (sem_curingas termo = true →
     ∀ d, d ∈ buscar_musicas termo bd
          ↔ d ∈ obter_todas_musicas bd
            ∧ (ocorre_sem_caixa termo (d_titulo d)
               ∨ ocorre_sem_caixa termo (d_artista_nome d)))
  ∧ (λ d, (d_artista_nome d, d_titulo d)) <$> buscar_musicas "ab" (db catalogo_busca)
    = [("Abba", "Waterloo"); ("Xyz", "Abba Tribute")].
Proof.
  set (P := λ d, like ("%" +:+ termo +:+ "%") (d_titulo d)
                 || like ("%" +:+ termo +:+ "%") (d_artista_nome d)).
  destruct (order_by_correto ordem_artista_titulo (filter P (juncao bd)))
    as [Hperm Hsort].
  change (buscar_musicas termo bd ≡ₚ filter P (juncao bd)) in Hperm.
  change (StronglySorted ordem_artista_titulo (buscar_musicas termo bd)) in Hsort.
  assert (Htodas : obter_todas_musicas bd ≡ₚ juncao bd)
    by apply (order_by_correto ordem_artista_titulo (juncao bd)).
  split; [by rewrite Hperm, Htodas|]. split; [done|]. split; [|done].
  intros Ht d. rewrite Hperm, Htodas, list_elem_of_filter.
  unfold P. rewrite orb_True, !Is_true_true, !like_contem, !contem_sem_caixa by done.
  tauto.
Qed.

Lemma buscar_musicas_exemplo :
  sem_curingas "ab" = true
  ∧ ∀ d, d ∈ buscar_musicas "ab" (db catalogo_busca)
         ↔ d ∈ obter_todas_musicas (db catalogo_busca)
           ∧ (ocorre_sem_caixa "ab" (d_titulo d)
              ∨ ocorre_sem_caixa "ab" (d_artista_nome d)).
Proof.
  assert (Ht : sem_curingas "ab" = true) by done.
  split; [done|].
  destruct (buscar_musicas_correto "ab" (db catalogo_busca)) as (_ & _ & H & _).
  exact (H Ht).
Defined.

(** C9 (counterexample): with the track ["abc"] of the artist ["Ghi"]
    stored, the term ["a_c"] finds that track, and ["a_c"] occurs neither in
    its title nor in the name of its artist. *)
Lemma busca_com_curinga :
  let bd := db (CatalogoMusical_adicionar_musica "abc" "u1" "Ghi" "G"
                  (CatalogoMusical_init banco_novo)).2 in
  (λ d, (d_artista_nome d, d_titulo d)) <$> buscar_musicas "a_c" bd
  = [("Ghi", "abc")]
  ∧ contem (minusculas "a_c") (minusculas "abc") = false
  ∧ contem (minusculas "a_c") (minusculas "Ghi") = false.
Proof. done. Qed.

(** ** The player *)

#[local] Arguments Nat.modulo : simpl never.

(** [shuffle_de] leaves a permutation in the list object it works on and
    touches nothing else but the random generator. *)
Lemma shuffle_de_permuta (ref n : nat) (w : Mundo) (l : list Musica) :
  objetos w !! ref = Some l → n < length l ∨ n = 0 →
  ∃ l' acaso',
    shuffle_de ref n w
    = (Retorna (),
       {| servico := servico w; objetos := <[ref := l']> (objetos w);
          saida := saida w; acaso := acaso'; mpv := mpv w |})
    ∧ l' ≡ₚ l.
Proof.
  revert w l. induction n as [|n IH]; intros [sv ob sa ac mp] l; simpl; intros Hl Hn.
  - exists l, ac. split; [|done]. unfold mret, M_ret. by rewrite list_insert_id.
  - destruct Hn as [Hn|]; [|done].
    set (j := ac 0 `mod` S (S n)).
    assert (Hj : j < length l).
    { pose proof (Nat.mod_upper_bound (ac 0) (S (S n))). unfold j. lia. }
    destruct (lookup_lt_is_Some_2 l j Hj) as [xj Hxj].
    destruct (lookup_lt_is_Some_2 l (S n) Hn) as [xi Hxi].
    assert (Href : ref < length ob) by (by eapply lookup_lt_Some).
    set (l2 := <[j := xi]> (<[S n := xj]> l)).
    destruct (IH {| servico := sv; objetos := <[ref := l2]> ob; saida := sa;
                    acaso := λ k, ac (S k); mpv := mp |} l2)
      as (l' & acaso' & Hrun & Hperm).
    { simpl. by rewrite list_lookup_insert_eq. }
    { left. unfold l2. rewrite !length_insert. lia. }
    exists l', acaso'. split.
    + unfold mbind, M_bind, randbelow, trocar, ler_lista, gravar_lista; simpl.
      unfold mbind, M_bind; simpl. rewrite Hl. fold j. rewrite Hxj, Hxi.
      simpl. fold l2. simpl in Hrun. rewrite Hrun.
      by rewrite list_insert_insert_eq.
    + rewrite Hperm. unfold l2. by apply Permutation_insert_swap.
Qed.

Lemma emite_emitir (ev : Evento) (w : Mundo) :
  ∃ w', emite (emitir ev) w [ev] w'.
Proof. eexists. by repeat split. Qed.

Lemma emite_print (texto : string) (w : Mundo) :
  ∃ w', emite (print texto) w [Print texto] w'.
Proof. apply emite_emitir. Qed.

Lemma emite_seq (c1 c2 : M unit) (w w1 w2 : Mundo) (e1 e2 : list Evento) :
  emite c1 w e1 w1 → emite c2 w1 e2 w2 → emite (c1;; c2) w (e1 ++ e2) w2.
Proof.
  intros (H1 & Hs1 & Ho1 & He1) (H2 & Hs2 & Ho2 & He2).
  unfold emite, mbind, M_bind. rewrite H1, H2, Hs2, Hs1, Ho2, Ho1, He2, He1.
  by rewrite (assoc_L (++)).
Qed.

Lemma emite_mret (w : Mundo) : emite (mret ()) w [] w.
Proof. unfold emite. by rewrite app_nil_r. Qed.

(** A loop whose body only adds events: the runs of the player it makes
    are those of its body on each element, in the order of the list. *)
Lemma para_cada_emite {A} (corpo : A → M unit) (g : A → list (list string))
    (sv : ServicoMusical) (l : list A) (w : Mundo) :
  (∀ x w, servico w = sv →
          ∃ evs w', emite (corpo x) w evs w' ∧ comandos evs = g x) →
  servico w = sv →
  ∃ evs w', emite (para_cada l corpo) w evs w' ∧ comandos evs = l ≫= g.
Proof.
  intros Hcorpo. revert w. induction l as [|x l IH]; intros w Hsv.
  - exists [], w. split; [apply emite_mret|done].
  - destruct (Hcorpo x w Hsv) as (e1 & w1 & H1 & Hc1).
    destruct (IH w1) as (e2 & w2 & H2 & Hc2).
    { destruct H1 as (_ & -> & _). done. }
    exists (e1 ++ e2), w2. split; [by eapply emite_seq|].
    unfold comandos in *. by rewrite omap_app, Hc1, Hc2, bind_cons.
Qed.

Lemma tocar_emite (link : string) (video : bool) (volume : Z) (w : Mundo) :
  ∃ evs w', emite (tocar link video volume) w evs w'
            ∧ comandos evs = [command link video volume].
Proof.
  destruct w as [sv ob sa ac mp].
  unfold emite, tocar, subprocess_run, print, emitir, mbind, M_bind; simpl.
  destruct (mp 0) as [|e stderr|].
  - exists [Subprocess (command link video volume)]. eexists.
    by repeat split.
  - exists [Subprocess (command link video volume);
            Print ("Erro ao executar comando: " +:+ e);
            Print ("Saída de erro: " +:+ stderr)].
    eexists. repeat split. simpl. by rewrite <-!(assoc_L (++)).
  - exists [Subprocess (command link video volume);
            Print "Comando mpv não encontrado. Verifique se está instalado."].
    eexists. repeat split. simpl. by rewrite <-!(assoc_L (++)).
Qed.

Lemma Musica_tocar_emite (self : Musica) (video : bool) (volume : Z) (w : Mundo) :
  ∃ evs w', emite (Musica_tocar self video volume) w evs w'
            ∧ comandos evs = [command (m_url self) video volume].
Proof.
  destruct (emite_print ("Tocando: " +:+ m_titulo self) w) as (w1 & H1).
  destruct (tocar_emite (m_url self) video volume w1) as (e2 & w2 & H2 & Hc).
  exists ([Print ("Tocando: " +:+ m_titulo self)] ++ e2), w2.
  split; [by eapply emite_seq|]. done.
Qed.

Lemma Player_exibir_playlist_emite (w : Mundo) (ref : nat) (l : list Musica) :
  _playlist_atual (player (servico w)) = PyList ref →
  objetos w !! ref = Some l →
  ∃ evs w', emite Player_exibir_playlist w evs w' ∧ comandos evs = [].
Proof.
  intros Hp Hl.
  destruct (emite_print (nl +:+ "===--- Playlist ---===" +:+ nl) w) as (w1 & H1).
  destruct (para_cada_emite
              (λ '(i, musica), print ("[" +:+ pretty i +:+ "] " +:+ Musica_str musica))
              (λ _, []) (servico w1) (imap (λ i musica, (S i, musica)) l) w1)
    as (e2 & w2 & H2 & Hc2); [|done|].
  { intros [i musica] w0 _.
    destruct (emite_print ("[" +:+ pretty i +:+ "] " +:+ Musica_str musica) w0)
      as (w0' & H0).
    by exists [Print ("[" +:+ pretty i +:+ "] " +:+ Musica_str musica)], w0'. }
  exists ([Print (nl +:+ "===--- Playlist ---===" +:+ nl)] ++ e2), w2. split.
  - destruct H1 as (R1 & S1 & O1 & E1), H2 as (R2 & S2 & O2 & E2).
    unfold emite, Player_exibir_playlist, obter_player, mbind, M_bind, ler_lista.
    rewrite R1, Hp, O1, Hl, R2, S2, S1, O2, O1, E2, E1, (assoc_L (++)). done.
  - unfold comandos in *. rewrite omap_app, Hc2. simpl.
    generalize (imap (λ i musica, (S i, musica)) l).
    intros k. by induction k.
Qed.

Lemma bind_unitario {A B} (g : A → B) (l : list A) :
  l ≫= (λ x, [g x]) = g <$> l.
Proof. induction l as [|x l IH]; [done|]. by rewrite bind_cons, IH. Qed.

(** [tocar_playlist] on a playlist that is the list object [ref]: one run
    of the player for each track of the list, in its order; on the empty
    list, the report and nothing else. *)
Lemma Player_tocar_playlist_emite (w : Mundo) (ref : nat) (l : list Musica) :
  _playlist_atual (player (servico w)) = PyList ref →
  objetos w !! ref = Some l →
  ∃ evs w',
    emite Player_tocar_playlist w evs w'
    ∧ comandos evs
      = (λ m, command (m_url m) (video (player (servico w)))
                      (volume (player (servico w)))) <$> l
    ∧ (l = [] → evs = [Print "Playlist vazia!"]).
Proof.
  intros Hp Hl. destruct l as [|x l].
  - destruct (emite_print "Playlist vazia!" w) as (w1 & H1).
    exists [Print "Playlist vazia!"], w1. split; [|done].
    destruct H1 as (R1 & H1). split; [|done].
    unfold Player_tocar_playlist, obter_player, verdadeiro, ler_lista, mbind, M_bind.
    rewrite Hp, Hl. simpl. exact R1.
  - destruct (Player_exibir_playlist_emite w ref (x :: l) Hp Hl)
      as (e1 & w1 & H1 & Hc1).
    destruct (para_cada_emite
                (λ musica, self ← obter_player;
                           Musica_tocar musica (video self) (volume self))
                (λ m, [command (m_url m) (video (player (servico w)))
                               (volume (player (servico w)))])
                (servico w) (x :: l) w1)
      as (e2 & w2 & H2 & Hc2).
    { intros m w0 Hw0.
      destruct (Musica_tocar_emite m (video (player (servico w0)))
                  (volume (player (servico w0))) w0) as (e & w0' & H0 & Hc0).
      exists e, w0'. by rewrite <-Hw0. }
    { apply H1. }
    exists (e1 ++ e2), w2. split; [|split; [|done]].
    + destruct H1 as (R1 & S1 & O1 & E1), H2 as (R2 & S2 & O2 & E2).
      unfold emite, Player_tocar_playlist.
      set (corpo := λ musica : Musica, _) in *.
      unfold obter_player, verdadeiro, ler_lista, mbind, M_bind, mret, M_ret.
      rewrite Hp, Hl. cbv beta iota delta [negb].
      rewrite R1, O1, Hl, R2, S2, S1, O2, O1, E2, E1.
      by rewrite (assoc_L (++)).
    + unfold comandos in *. by rewrite omap_app, Hc1, Hc2, bind_unitario.
Qed.

(** C10: [tocar_musicas] on a list object [ref] that holds [l].  With
    shuffle asked for, the call returns normally; the object then holds a
    permutation [l'] of [l], and it is the playlist of the player; no other
    list object changed; the runs of the external player the call made are
    one for each track of [l'], in its order, so each track of [l] is played
    as often as it occurs in [l].  Without shuffle the same holds with
    [l' = l].  When [l] is empty the call prints the report and runs
    nothing. *)
Theorem tocar_musicas_aleatorio (w : Mundo) (ref : nat) (l : list Musica)
    (aleatorio : bool) :
  objetos w !! ref = Some l →
  ∃ l' evs w',
    Player_tocar_musicas [PyList ref; PyBool aleatorio] w = (Retorna (), w')
    ∧ l' ≡ₚ l
    ∧ (aleatorio = false → l' = l)
    ∧ objetos w' = <[ref := l']> (objetos w)
    ∧ _playlist_atual (player (servico w')) = PyList ref
    ∧ saida w' = saida w ++ evs
    ∧ comandos evs
      = (λ m, command (m_url m) (video (player (servico w)))
                      (volume (player (servico w)))) <$> l'
    ∧ (l = [] → evs = [Print "Playlist vazia!"]).
Proof.
  intros Hl.
  assert (∃ l' ac',
            (if aleatorio then shuffle (PyList ref) else passar) w
            = (Retorna (),
               {| servico := servico w; objetos := <[ref := l']> (objetos w);
                  saida := saida w; acaso := ac'; mpv := mpv w |})
            ∧ l' ≡ₚ l ∧ (aleatorio = false → l' = l))
    as (l' & ac' & Hsh & Hperm & Hmesma).
  { destruct aleatorio.
    - destruct (shuffle_de_permuta ref (length l - 1) w l Hl)
        as (l' & ac' & Hsh & Hperm).
      { destruct l; simpl; [by right|left; lia]. }
      exists l', ac'. split; [|done].
      unfold shuffle, ler_lista, mbind, M_bind. by rewrite Hl.
    - exists l, (acaso w). split; [|done].
      rewrite list_insert_id by done. by destruct w. }
  assert (Href : ref < length (objetos w)) by (by eapply lookup_lt_Some).
  set (w2 := {| servico := {| catalogo := catalogo (servico w);
                              player := {| video := video (player (servico w));
                                           volume := volume (player (servico w));
                                           _playlist_atual := PyList ref |} |};
                objetos := <[ref := l']> (objetos w); saida := saida w;
                acaso := ac'; mpv := mpv w |}).
  destruct (Player_tocar_playlist_emite w2 ref l') as (evs & w' & Hrun & Hc & Hvazia).
  { done. }
  { simpl. by rewrite list_lookup_insert_eq. }
  destruct Hrun as (R & S & O & E).
  exists l', evs, w'. split.
  { unfold Player_tocar_musicas, def2, verdadeiro, Player_criar_playlist,
      obter_player, gravar_player, mbind, M_bind, mret, M_ret.
    rewrite Hsh. simpl. exact R. }
  split; [done|]. split; [done|]. split; [by rewrite O|]. split; [by rewrite S|].
  split; [by rewrite E|]. split; [done|].
  intros ->. apply Hvazia. by apply Permutation_nil_r in Hperm.
Qed.

Lemma tocar_musicas_aleatorio_exemplo :
  objetos mundo_exemplo !! 1 = Some (CatalogoMusical_buscar_musicas catalogo_exemplo)
  ∧ ∃ l' evs w',
      Player_tocar_musicas [PyList 1; PyBool true] mundo_exemplo = (Retorna (), w')
      ∧ l' ≡ₚ CatalogoMusical_buscar_musicas catalogo_exemplo
      ∧ (true = false → l' = CatalogoMusical_buscar_musicas catalogo_exemplo)
      ∧ objetos w' = <[1 := l']> (objetos mundo_exemplo)
      ∧ _playlist_atual (player (servico w')) = PyList 1
      ∧ saida w' = saida mundo_exemplo ++ evs
      ∧ comandos evs
        = (λ m, command (m_url m) (video (player (servico mundo_exemplo)))
                        (volume (player (servico mundo_exemplo)))) <$> l'
      ∧ (CatalogoMusical_buscar_musicas catalogo_exemplo = [] →
         evs = [Print "Playlist vazia!"]).
Proof.
  assert (H : objetos mundo_exemplo !! 1
              = Some (CatalogoMusical_buscar_musicas catalogo_exemplo)) by done.
  split; [done|].
  exact (tocar_musicas_aleatorio mundo_exemplo 1 _ true H).
Defined.

(** ** Play-all *)

(** C4: whatever the state, and with whatever arguments it is called,
    [ServicoMusical.tocar_todas] raises [TypeError] and adds no event: no
    track is played.  Called with no argument it reads the catalogue and
    then calls [Player.tocar_musicas] without [aleatorio]; called as the
    menu calls it, with the shuffle flag, it is refused at the call with
    the state untouched, and the menu's handler prints the error and
    nothing else. *)
Theorem tocar_todas_nunca_toca (w : Mundo) :
  (∀ args, ∃ msg w',
      ServicoMusical_tocar_todas args w = (Levanta (TypeError msg), w')
      ∧ saida w' = saida w
      ∧ servico w' = servico w)
  ∧ (ServicoMusical_tocar_todas [] w
     = Player_tocar_musicas [PyList (length (objetos w))]
         {| servico := servico w;
            objetos := objetos w
                       ++ [CatalogoMusical_buscar_musicas (catalogo (servico w))];
            saida := saida w; acaso := acaso w; mpv := mpv w |})
  ∧ (∀ musicas, ∃ msg,
      Player_tocar_musicas [musicas] w = (Levanta (TypeError msg), w))
  ∧ (∀ ativar, ∃ msg,
      ServicoMusical_tocar_todas [PyBool (InterfaceUsuario_aleatorio ativar)] w
      = (Levanta (TypeError msg), w)
      ∧ InterfaceUsuario_executar_opcao_3 ativar w
        = (Retorna (),
           {| servico := servico w; objetos := objetos w;
              saida := saida w ++ [Print ("Erro: " +:+ msg)];
              acaso := acaso w; mpv := mpv w |})).
Proof.
  destruct w as [sv ob sa ac mp]. split; [|split; [|split]].
  - intros [|a args].
    + eexists _, _. by repeat split.
    + unfold ServicoMusical_tocar_todas, def0, erro_aridade, levantar.
      destruct (decide _); eexists _, _; by repeat split.
  - done.
  - intros musicas. by eexists.
  - intros ativar. eexists. by split.
Qed.

(** * Further properties of the store *)

(** ** Lookups of artists and genres *)

Section busca_por_chave.
Context {A B : Type} `{EqDecision B} (f : A → B).

(** With distinct keys, [fetchone] of the rows of one key is the row of
    that key, if there is one. *)
Lemma fetchone_chave (l : list A) (k : B) (x : A) :
  NoDup (f <$> l) →
  fetchone (filter (λ r, f r = k) l) = Some x ↔ x ∈ l ∧ f x = k.
Proof.
  intros Hnd. unfold fetchone. split.
  - intros (l' & Hl)%head_Some.
    assert (x ∈ filter (λ r, f r = k) l) as Hx by (rewrite Hl; left).
    apply list_elem_of_filter in Hx. tauto.
  - intros [Hx <-]. by rewrite (filter_chave_unica f).
Qed.

Lemma fetchone_chave_ausente (l : list A) (k : B) :
  fetchone (filter (λ r, f r = k) l) = None ↔ k ∉ f <$> l.
Proof.
  unfold fetchone. rewrite head_None. split.
  - intros Hnil (x & -> & Hx)%list_elem_of_fmap.
    by apply (filter_nil_not_elem_of _ _ x Hnil).
  - apply filter_chave_ausente.
Qed.
End busca_por_chave.

(** X1: in a store that meets the engine's constraints, the lookup of an
    artist by id (by name) returns a row exactly when that row is in the
    table and has that id (name), and returns [None] exactly when no row has
    it; the same for genres. *)
Theorem obter_por_chave (bd : BancoDeDadosMusica) :
  integro bd →
  (∀ i r, obter_artista_por_id i bd = Some r
          ↔ r ∈ linhas (artistas bd) ∧ ln_id r = i)
  ∧ (∀ i, obter_artista_por_id i bd = None ↔ i ∉ ids_nome (artistas bd))
  ∧ (∀ n r, obter_artista_por_nome n bd = Some r
            ↔ r ∈ linhas (artistas bd) ∧ ln_nome r = n)
  ∧ (∀ n, obter_artista_por_nome n bd = None ↔ n ∉ nomes (artistas bd))
  ∧ (∀ i r, obter_genero_por_id i bd = Some r
            ↔ r ∈ linhas (generos bd) ∧ ln_id r = i)
  ∧ (∀ i, obter_genero_por_id i bd = None ↔ i ∉ ids_nome (generos bd))
  ∧ (∀ n r, obter_genero_por_nome n bd = Some r
            ↔ r ∈ linhas (generos bd) ∧ ln_nome r = n)
  ∧ (∀ n, obter_genero_por_nome n bd = None ↔ n ∉ nomes (generos bd)).
Proof.
  intros [Hia Hna Hig Hng _ _].
  split; [intros i r; by apply (fetchone_chave ln_id)|].
  split; [intros i; by apply (fetchone_chave_ausente ln_id)|].
  split; [intros n r; by apply (fetchone_chave ln_nome)|].
  split; [intros n; by apply (fetchone_chave_ausente ln_nome)|].
  split; [intros i r; by apply (fetchone_chave ln_id)|].
  split; [intros i; by apply (fetchone_chave_ausente ln_id)|].
  split; [intros n r; by apply (fetchone_chave ln_nome)|].
  intros n; by apply (fetchone_chave_ausente ln_nome).
Qed.

Lemma obter_por_chave_exemplo :
  integro bd_exemplo
  ∧ obter_artista_por_nome "A" bd_exemplo = Some {| ln_id := 2; ln_nome := "A" |}
  ∧ obter_genero_por_id 7 bd_exemplo = None.
Proof.
  assert (Hbd : integro bd_exemplo) by apply alcancavel_integro, bd_exemplo_alcancavel.
  destruct (obter_por_chave bd_exemplo Hbd) as (_ & _ & Hn & _ & _ & Hi & _).
  split; [done|]. split.
  - apply Hn. split; [by apply (bool_decide_unpack _)|done].
  - apply Hi. by apply (bool_decide_unpack _).
Defined.

Lemma obter_ou_criar_mantem (nome : string) (t : Tabela LinhaNome) (r : LinhaNome) :
  r ∈ linhas t → r ∈ linhas (obter_ou_criar nome t).2.
Proof.
  intros Hr. unfold obter_ou_criar, insert_nome.
  case_decide; [done|]. simpl. apply elem_of_app. by left.
Qed.

(** Get-or-create and then the two lookups, on one table. *)
Lemma obter_ou_criar_ida_e_volta (nome : string) (t : Tabela LinhaNome) :
  NoDup (ids_nome t) → NoDup (nomes t) →
  ∃ i t',
    obter_ou_criar nome t = (Some i, t')
    ∧ fetchone (select_nome_por_nome nome t') = Some {| ln_id := i; ln_nome := nome |}
    ∧ fetchone (select_nome_por_id i t') = Some {| ln_id := i; ln_nome := nome |}.
Proof.
  intros Hids Hnomes.
  destruct (obter_ou_criar_duas_vezes nome t Hnomes) as (i & t' & Hrun & _ & Hf & _).
  exists i, t'. split; [done|].
  unfold select_nome_por_nome, select_nome_por_id. rewrite Hf. split; [done|].
  apply (fetchone_chave ln_id).
  - pose proof (obter_ou_criar_ids nome t Hids Hnomes) as [H _].
    by rewrite Hrun in H.
  - split; [|done].
    assert ({| ln_id := i; ln_nome := nome |}
            ∈ filter (λ r, ln_nome r = nome) (linhas t')) as Hin
      by (rewrite Hf; left).
    by apply list_elem_of_filter in Hin as [_ ?].
Qed.

(** X2: in a store that meets the engine's constraints, [adicionar_artista]
    returns an id, and right after it the lookup by that name and the lookup
    by that id both return the row of that id and name; no artist that was
    stored is lost.  The same for [adicionar_genero]. *)
Theorem adicionar_e_obter (n : string) (bd : BancoDeDadosMusica) :
  integro bd →
  (∃ i bd',
      adicionar_artista n bd = (Some i, bd')
      ∧ obter_artista_por_nome n bd' = Some {| ln_id := i; ln_nome := n |}
      ∧ obter_artista_por_id i bd' = Some {| ln_id := i; ln_nome := n |}
      ∧ ∀ r, r ∈ linhas (artistas bd) → r ∈ linhas (artistas bd'))
  ∧ (∃ i bd',
      adicionar_genero n bd = (Some i, bd')
      ∧ obter_genero_por_nome n bd' = Some {| ln_id := i; ln_nome := n |}
      ∧ obter_genero_por_id i bd' = Some {| ln_id := i; ln_nome := n |}
      ∧ ∀ r, r ∈ linhas (generos bd) → r ∈ linhas (generos bd')).
Proof.
  intros [Hia Hna Hig Hng _ _]. split.
  - destruct (obter_ou_criar_ida_e_volta n (artistas bd) Hia Hna)
      as (i & t' & Hrun & H1 & H2).
    exists i, (com_artistas t' bd). rewrite adicionar_artista_tabela, Hrun.
    split; [done|]. split; [done|]. split; [done|].
    intros r Hr. simpl.
    pose proof (obter_ou_criar_mantem n (artistas bd) r Hr) as H.
    by rewrite Hrun in H.
  - destruct (obter_ou_criar_ida_e_volta n (generos bd) Hig Hng)
      as (i & t' & Hrun & H1 & H2).
    exists i, (com_generos t' bd). rewrite adicionar_genero_tabela, Hrun.
    split; [done|]. split; [done|]. split; [done|].
    intros r Hr. simpl.
    pose proof (obter_ou_criar_mantem n (generos bd) r Hr) as H.
    by rewrite Hrun in H.
Qed.

Lemma adicionar_e_obter_exemplo :
  integro bd_exemplo
  ∧ ∃ i bd',
      adicionar_artista "Novo" bd_exemplo = (Some i, bd')
      ∧ obter_artista_por_nome "Novo" bd' = Some {| ln_id := i; ln_nome := "Novo" |}
      ∧ obter_artista_por_id i bd' = Some {| ln_id := i; ln_nome := "Novo" |}
      ∧ ∀ r, r ∈ linhas (artistas bd_exemplo) → r ∈ linhas (artistas bd').
Proof.
  assert (Hbd : integro bd_exemplo) by apply alcancavel_integro, bd_exemplo_alcancavel.
  split; [done|]. exact (proj1 (adicionar_e_obter "Novo" bd_exemplo Hbd)).
Defined.

(** ** Listings of artists and genres *)

#[global] Instance ordem_nome_total : Total ordem_nome.
Proof. intros x y. apply texto_le_total. Qed.

#[global] Instance ordem_nome_trans : Transitive ordem_nome.
Proof. intros x y z. apply texto_le_trans. Qed.

(** X3: [listar_artistas] and [listar_generos] of the catalogue return one
    value for each row of the table, with the id and the name of the row, in
    ascending order of name. *)
Theorem listar_por_nome (c : CatalogoMusical) :
  (CatalogoMusical_listar_artistas c
   ≡ₚ (λ r, {| a_id := ln_id r; a_nome := ln_nome r |}) <$> linhas (artistas (db c)))
  ∧ StronglySorted ordem_artista (CatalogoMusical_listar_artistas c)
  ∧ (CatalogoMusical_listar_generos c
     ≡ₚ (λ r, {| g_id := ln_id r; g_nome := ln_nome r |}) <$> linhas (generos (db c)))
  ∧ StronglySorted ordem_genero (CatalogoMusical_listar_generos c).
Proof.
  unfold CatalogoMusical_listar_artistas, CatalogoMusical_listar_generos,
    obter_todos_artistas, obter_todos_generos.
  destruct (order_by_correto ordem_nome (linhas (artistas (db c)))) as [Hpa Hsa].
  destruct (order_by_correto ordem_nome (linhas (generos (db c)))) as [Hpg Hsg].
  split; [by rewrite Hpa|]. split.
  { by apply (StronglySorted_fmap _ ordem_nome ordem_artista). }
  split; [by rewrite Hpg|].
  by apply (StronglySorted_fmap _ ordem_nome ordem_genero).
Qed.

(** ** Lookups of tracks *)

Lemma juncao_elem (bd : BancoDeDadosMusica) (d : MusicaDict) :
  d ∈ juncao bd
  ↔ ∃ m a g,
      m ∈ linhas (musicas bd)
      ∧ a ∈ linhas (artistas bd) ∧ ln_id a = lm_artista_id m
      ∧ g ∈ linhas (generos bd) ∧ ln_id g = lm_genero_id m
      ∧ d = linha_juncao m a g.
Proof.
  unfold juncao, juntar. rewrite list_elem_of_bind. split.
  - intros (m & Hd & Hm).
    apply list_elem_of_bind in Hd as (a & Hd & [Ha Hina]%list_elem_of_filter).
    apply list_elem_of_bind in Hd as (g & Hd & [Hg Hing]%list_elem_of_filter).
    apply list_elem_of_singleton in Hd. by exists m, a, g.
  - intros (m & a & g & Hm & Ha & Hida & Hg & Hidg & ->).
    exists m. split; [|done].
    apply list_elem_of_bind. exists a. split; [|by apply list_elem_of_filter].
    apply list_elem_of_bind. exists g. split; [|by apply list_elem_of_filter].
    by apply list_elem_of_singleton.
Qed.

Lemma obter_todas_musicas_elem (bd : BancoDeDadosMusica) (d : MusicaDict) :
  d ∈ obter_todas_musicas bd ↔ d ∈ juncao bd.
Proof.
  unfold obter_todas_musicas.
  by rewrite (proj1 (order_by_correto ordem_artista_titulo (juncao bd))).
Qed.

(** The joined rows of a store that meets the engine's constraints have
    distinct ids and distinct urls. *)
Lemma juncao_chaves_distintas (bd : BancoDeDadosMusica) :
  integro bd → NoDup (d_id <$> juncao bd) ∧ NoDup (d_url <$> juncao bd).
Proof.
  intros [Hia _ Hig _ Hids Hurls].
  pose proof (juncao_linhas bd Hia Hig) as Hl.
  assert (Hid : d_id <$> juncao bd = lm_id <$> (linha_de_dict <$> juncao bd))
    by (by rewrite <-list_fmap_compose).
  assert (Hurl : d_url <$> juncao bd = lm_url <$> (linha_de_dict <$> juncao bd))
    by (by rewrite <-list_fmap_compose).
  rewrite Hid, Hurl, Hl. split.
  - eapply sublist_NoDup; [exact Hids|]. apply fmap_sublist, sublist_filter.
  - eapply sublist_NoDup; [exact Hurls|]. apply fmap_sublist, sublist_filter.
Qed.

(** X4: in a store that meets the engine's constraints, the lookup of a
    track by id (by url) returns a record exactly when the listing of all
    tracks holds that record with that id (url); the two lookups agree on
    every record either of them returns; and an id or url that no track has
    gives [None]. *)
Theorem obter_musica_por_chave (bd : BancoDeDadosMusica) :
  integro bd →
  (∀ i d, obter_musica_por_id i bd = Some d
          ↔ d ∈ obter_todas_musicas bd ∧ d_id d = i)
  ∧ (∀ u d, obter_musica_por_url u bd = Some d
            ↔ d ∈ obter_todas_musicas bd ∧ d_url d = u)
  ∧ (∀ u d, obter_musica_por_url u bd = Some d →
            obter_musica_por_id (d_id d) bd = Some d)
  ∧ (∀ i d, obter_musica_por_id i bd = Some d →
            obter_musica_por_url (d_url d) bd = Some d)
  ∧ (∀ i, i ∉ ids_musica (musicas bd) → obter_musica_por_id i bd = None)
  ∧ (∀ u, u ∉ urls (musicas bd) → obter_musica_por_url u bd = None).
Proof.
  intros Hbd. destruct (juncao_chaves_distintas bd Hbd) as [Hid Hurl].
  assert (H1 : ∀ i d, obter_musica_por_id i bd = Some d
                      ↔ d ∈ obter_todas_musicas bd ∧ d_id d = i).
  { intros i d. rewrite obter_todas_musicas_elem. by apply (fetchone_chave d_id). }
  assert (H2 : ∀ u d, obter_musica_por_url u bd = Some d
                      ↔ d ∈ obter_todas_musicas bd ∧ d_url d = u).
  { intros u d. rewrite obter_todas_musicas_elem. by apply (fetchone_chave d_url). }
  split; [done|]. split; [done|]. split; [|split; [|split]].
  - intros u d [Hd _]%H2. by apply H1.
  - intros i d [Hd _]%H1. by apply H2.
  - intros i Hi. apply (fetchone_chave_ausente d_id).
    intros (d & -> & Hd)%list_elem_of_fmap. apply Hi.
    apply juncao_elem in Hd as (m & a & g & Hm & _ & _ & _ & _ & ->).
    by apply (list_elem_of_fmap_2 lm_id).
  - intros u Hu. apply (fetchone_chave_ausente d_url).
    intros (d & -> & Hd)%list_elem_of_fmap. apply Hu.
    apply juncao_elem in Hd as (m & a & g & Hm & _ & _ & _ & _ & ->).
    by apply (list_elem_of_fmap_2 lm_url).
Qed.

Lemma obter_musica_por_chave_exemplo :
  integro bd_exemplo
  ∧ obter_musica_por_id 1 bd_exemplo
    = Some {| d_id := 1; d_artista_id := 1; d_titulo := "Y"; d_url := "u1";
              d_genero_id := 1; d_artista_nome := "B"; d_genero_nome := "G" |}
  ∧ obter_musica_por_url "u9" bd_exemplo = None.
Proof.
  assert (Hbd : integro bd_exemplo) by apply alcancavel_integro, bd_exemplo_alcancavel.
  destruct (obter_musica_por_chave bd_exemplo Hbd) as (Hi & _ & _ & _ & _ & Hu).
  split; [done|]. split.
  - apply Hi. split; [by apply (bool_decide_unpack _)|done].
  - apply Hu. by apply (bool_decide_unpack _).
Defined.

(** X5: in a store that meets the engine's constraints, adding a track with
    a new url for an artist and a genre that exist returns an id, and right
    after it the lookup by that id and the lookup by that url both return
    the track with the names of its artist and of its genre. *)
Theorem adicionar_musica_e_obter (a : Z) (t u : string) (g : Z)
    (na ng : string) (bd : BancoDeDadosMusica) :
  integro bd →
  {| ln_id := a; ln_nome := na |} ∈ linhas (artistas bd) →
  {| ln_id := g; ln_nome := ng |} ∈ linhas (generos bd) →
  u ∉ urls (musicas bd) →
  ∃ i bd',
    adicionar_musica a t u g bd = (Some i, bd')
    ∧ obter_musica_por_id i bd'
      = Some {| d_id := i; d_artista_id := a; d_titulo := t; d_url := u;
                d_genero_id := g; d_artista_nome := na; d_genero_nome := ng |}
    ∧ obter_musica_por_url u bd'
      = Some {| d_id := i; d_artista_id := a; d_titulo := t; d_url := u;
                d_genero_id := g; d_artista_nome := na; d_genero_nome := ng |}.
Proof.
  intros Hbd Ha Hg Hu.
  pose proof (adicionar_musica_integro a t u g bd Hbd) as Hbd'.
  unfold adicionar_musica, insert_musica in *.
  rewrite decide_False in * by done.
  assert (Hpais : pais_existem bd a g = true).
  { unfold pais_existem. apply andb_true_iff. split; apply bool_decide_eq_true.
    - by apply (list_elem_of_fmap_2 ln_id) in Ha.
    - by apply (list_elem_of_fmap_2 ln_id) in Hg. }
  rewrite Hpais, andb_false_r in *. simpl in Hbd'.
  eexists _, _. split; [done|].
  set (i := proximo_rowid (ids_musica (musicas bd)) (seq (musicas bd))) in *.
  set (m := {| lm_id := i; lm_artista_id := a; lm_titulo := t; lm_url := u;
               lm_genero_id := g |}) in *.
  destruct (juncao_chaves_distintas _ Hbd') as [Hid Hurl].
  assert (Hd : linha_juncao m {| ln_id := a; ln_nome := na |}
                 {| ln_id := g; ln_nome := ng |}
               ∈ juncao (com_musicas {| linhas := linhas (musicas bd) ++ [m];
                                        seq := i |} bd)).
  { apply juncao_elem. eexists m, _, _. simpl.
    split; [apply elem_of_app; right; by left|]. done. }
  split.
  - by apply (fetchone_chave d_id).
  - by apply (fetchone_chave d_url).
Qed.

Lemma adicionar_musica_e_obter_exemplo :
  (integro bd_exemplo
   ∧ {| ln_id := 1; ln_nome := "B" |} ∈ linhas (artistas bd_exemplo)
   ∧ {| ln_id := 1; ln_nome := "G" |} ∈ linhas (generos bd_exemplo)
   ∧ "u9" ∉ urls (musicas bd_exemplo))
  ∧ ∃ i bd',
      adicionar_musica 1 "Z" "u9" 1 bd_exemplo = (Some i, bd')
      ∧ obter_musica_por_id i bd'
        = Some {| d_id := i; d_artista_id := 1; d_titulo := "Z"; d_url := "u9";
                  d_genero_id := 1; d_artista_nome := "B"; d_genero_nome := "G" |}
      ∧ obter_musica_por_url "u9" bd'
        = Some {| d_id := i; d_artista_id := 1; d_titulo := "Z"; d_url := "u9";
                  d_genero_id := 1; d_artista_nome := "B"; d_genero_nome := "G" |}.
Proof.
  assert (Hbd : integro bd_exemplo) by apply alcancavel_integro, bd_exemplo_alcancavel.
  assert (Ha : {| ln_id := 1; ln_nome := "B" |} ∈ linhas (artistas bd_exemplo))
    by (by apply (bool_decide_unpack _)).
  assert (Hg : {| ln_id := 1; ln_nome := "G" |} ∈ linhas (generos bd_exemplo))
    by (by apply (bool_decide_unpack _)).
  assert (Hu : "u9" ∉ urls (musicas bd_exemplo)) by (by apply (bool_decide_unpack _)).
  split; [done|].
  exact (adicionar_musica_e_obter 1 "Z" "u9" 1 "B" "G" bd_exemplo Hbd Ha Hg Hu).
Defined.

(** ** Ids are never handed out twice *)

Lemma seq_cobre_proximo {L} (id_de : L → Z) (t : Tabela L) (r : L) :
  seq_cobre id_de t → r ∈ linhas t →
  (id_de r < proximo_rowid (id_de <$> linhas t) (seq t))%Z.
Proof. intros Ht Hr. specialize (Ht r Hr). unfold proximo_rowid. lia. Qed.

Lemma seq_cobre_inserir {L} (id_de : L → Z) (t : Tabela L) (novo : L) :
  id_de novo = proximo_rowid (id_de <$> linhas t) (seq t) →
  seq_cobre id_de {| linhas := linhas t ++ [novo];
                     seq := proximo_rowid (id_de <$> linhas t) (seq t) |}.
Proof.
  intros Hnovo r [Hr| ->%list_elem_of_singleton]%elem_of_app; simpl; [|lia].
  apply (list_elem_of_fmap_2 id_de) in Hr. apply maior_limita in Hr.
  unfold proximo_rowid. lia.
Qed.

Lemma obter_ou_criar_seq (nome : string) (t : Tabela LinhaNome) :
  seq_cobre ln_id t →
  seq_cobre ln_id (obter_ou_criar nome t).2 ∧ (seq t ≤ seq (obter_ou_criar nome t).2)%Z.
Proof.
  intros Ht. unfold obter_ou_criar, insert_nome. case_decide; [by split|].
  simpl. split; [by apply (seq_cobre_inserir ln_id)|].
  unfold proximo_rowid. lia.
Qed.

(** Every writing method keeps the counter of [musicas] at or above the ids
    of its rows, and never lowers it. *)
Lemma aplicar_op_seq (op : Operacao) (bd : BancoDeDadosMusica) :
  seq_cobre lm_id (musicas bd) →
  seq_cobre lm_id (musicas (aplicar_op op bd))
  ∧ (seq (musicas bd) ≤ seq (musicas (aplicar_op op bd)))%Z.
Proof.
  intros Hm. destruct op; cbn [aplicar_op].
  - by rewrite adicionar_artista_tabela.
  - by rewrite adicionar_genero_tabela.
  - unfold adicionar_musica, insert_musica. case_decide; [done|].
    destruct (_ && _); [done|]. simpl.
    split; [by apply (seq_cobre_inserir lm_id)|]. unfold proximo_rowid. lia.
  - unfold atualizar_musica. destruct (updates_de _ _ _ _) as [|s sets]; [done|].
    unfold update_musica. destruct (existsb _ _); [done|].
    destruct (_ && _); [done|]. cbn [snd com_musicas musicas linhas seq].
    split; [|done].
    intros r (r0 & -> & Hr0)%list_elem_of_fmap.
    pose proof (Hm r0 Hr0) as Hle.
    case_decide; [by rewrite atribuir_todas_id|done].
  - unfold deletar_musica; simpl. split; [|done].
    intros r [_ Hr]%list_elem_of_filter. by apply Hm.
Qed.

Lemma alcancavel_seq (bd : BancoDeDadosMusica) :
  alcancavel bd → seq_cobre lm_id (musicas bd).
Proof.
  induction 1 as [|op bd _ IH].
  - intros r Hr. by apply not_elem_of_nil in Hr.
  - by apply aplicar_op_seq.
Qed.

Lemma aplicar_ops_seq (ops : list Operacao) (bd : BancoDeDadosMusica) :
  seq_cobre lm_id (musicas bd) →
  seq_cobre lm_id (musicas (aplicar_ops ops bd))
  ∧ (seq (musicas bd) ≤ seq (musicas (aplicar_ops ops bd)))%Z.
Proof.
  unfold aplicar_ops. revert bd.
  induction ops as [|op ops IH]; intros bd Hbd; [by split|]. simpl.
  destruct (aplicar_op_seq op bd Hbd) as [H1 H2].
  destruct (IH _ H1) as [H3 H4]. split; [done|lia].
Qed.

(** X6: the ids of tracks are never handed out twice.  In a store a
    program can get to, take the id of any track; after any further calls of
    the writing methods, deletions of that track included, every id that
    [adicionar_musica] returns is greater. *)
Theorem id_nunca_reutilizado (bd : BancoDeDadosMusica) (i : Z)
    (ops : list Operacao) (a : Z) (t u : string) (g : Z) (j : Z)
    (bd' : BancoDeDadosMusica) :
  alcancavel bd →
  i ∈ ids_musica (musicas bd) →
  adicionar_musica a t u g (aplicar_ops ops bd) = (Some j, bd') →
  (i < j)%Z.
Proof.
  intros Hbd (r & -> & Hr)%list_elem_of_fmap Hadd.
  pose proof (alcancavel_seq bd Hbd) as Hseq.
  destruct (aplicar_ops_seq ops bd Hseq) as [_ Hmono].
  specialize (Hseq r Hr).
  unfold adicionar_musica, insert_musica in Hadd.
  case_decide; [done|]. destruct (_ && _); [done|].
  injection Hadd as <- _. unfold proximo_rowid. lia.
Qed.

Lemma id_nunca_reutilizado_exemplo :
  (alcancavel bd_exemplo
   ∧ 2%Z ∈ ids_musica (musicas bd_exemplo)
   ∧ adicionar_musica 1 "Z" "u9" 1
       (aplicar_ops [OpDeletarMusica 2; OpDeletarMusica 1] bd_exemplo)
     = (Some 3%Z,
        (adicionar_musica 1 "Z" "u9" 1
           (aplicar_ops [OpDeletarMusica 2; OpDeletarMusica 1] bd_exemplo)).2))
  ∧ (2 < 3)%Z.
Proof.
  assert (H1 : 2%Z ∈ ids_musica (musicas bd_exemplo))
    by (by apply (bool_decide_unpack _)).
  assert (H2 : adicionar_musica 1 "Z" "u9" 1
                 (aplicar_ops [OpDeletarMusica 2; OpDeletarMusica 1] bd_exemplo)
               = (Some 3%Z,
                  (adicionar_musica 1 "Z" "u9" 1
                     (aplicar_ops [OpDeletarMusica 2; OpDeletarMusica 1]
                        bd_exemplo)).2)) by done.
  split; [by pose proof bd_exemplo_alcancavel|].
  exact (id_nunca_reutilizado bd_exemplo 2 _ 1 "Z" "u9" 1 3 _
           bd_exemplo_alcancavel H1 H2).
Defined.

(** ** Statistics *)

Lemma length_filter_complemento {A} (P : A → Prop) `{∀ x, Decision (P x)}
    (l : list A) :
  length (filter P l) + length (filter (λ x, ¬ P x) l) = length l.
Proof. by rewrite <-length_app, filter_app_complement. Qed.

(** X7: how the three counts of [obter_estatisticas] move.  Get-or-create
    adds one to its own count exactly when the name was new; adding a track
    adds one to the count of tracks exactly when it returned an id; an
    update changes no count; with distinct track ids, a deletion takes one
    from the count of tracks exactly when it returned [True].  No call
    changes a count of another table. *)
Theorem estatisticas_contam (bd : BancoDeDadosMusica) :
  (∀ n, obter_estatisticas (adicionar_artista n bd).2
        = {| e_artistas := e_artistas (obter_estatisticas bd)
                           + (if decide (n ∈ nomes (artistas bd)) then 0 else 1);
             e_generos := e_generos (obter_estatisticas bd);
             e_musicas := e_musicas (obter_estatisticas bd) |})
  ∧ (∀ n, obter_estatisticas (adicionar_genero n bd).2
          = {| e_artistas := e_artistas (obter_estatisticas bd);
               e_generos := e_generos (obter_estatisticas bd)
                            + (if decide (n ∈ nomes (generos bd)) then 0 else 1);
               e_musicas := e_musicas (obter_estatisticas bd) |})
  ∧ (∀ a t u g, obter_estatisticas (adicionar_musica a t u g bd).2
                = {| e_artistas := e_artistas (obter_estatisticas bd);
                     e_generos := e_generos (obter_estatisticas bd);
                     e_musicas := e_musicas (obter_estatisticas bd)
                                  + (if (adicionar_musica a t u g bd).1 is Some _
                                     then 1 else 0) |})
  ∧ (∀ i t u a g, obter_estatisticas (atualizar_musica i t u a g bd).2
                  = obter_estatisticas bd)
  ∧ (∀ i, NoDup (ids_musica (musicas bd)) →
          obter_estatisticas bd
          = {| e_artistas := e_artistas (obter_estatisticas (deletar_musica i bd).2);
               e_generos := e_generos (obter_estatisticas (deletar_musica i bd).2);
               e_musicas := e_musicas (obter_estatisticas (deletar_musica i bd).2)
                            + (if (deletar_musica i bd).1 then 1 else 0) |}).
Proof.
  unfold obter_estatisticas. split; [|split; [|split; [|split]]].
  - intros n. rewrite adicionar_artista_tabela. unfold obter_ou_criar, insert_nome.
    case_decide; simpl; [by rewrite Nat.add_0_r|]. by rewrite length_app.
  - intros n. rewrite adicionar_genero_tabela. unfold obter_ou_criar, insert_nome.
    case_decide; simpl; [by rewrite Nat.add_0_r|]. by rewrite length_app.
  - intros a t u g. unfold adicionar_musica, insert_musica.
    case_decide; simpl; [by rewrite Nat.add_0_r|].
    destruct (_ && _); simpl; [by rewrite Nat.add_0_r|]. by rewrite length_app.
  - intros i t u a g. unfold atualizar_musica.
    destruct (updates_de _ _ _ _) as [|s sets]; [done|].
    unfold update_musica. destruct (existsb _ _); [done|].
    destruct (_ && _); [done|]. simpl. by rewrite length_fmap.
  - intros i Hnd. unfold deletar_musica, delete_musica; simpl. f_equal.
    rewrite <-(length_filter_complemento (λ r, lm_id r = i) (linhas (musicas bd))).
    rewrite Nat.add_comm. f_equal.
    destruct (decide (i ∈ ids_musica (musicas bd))) as [Hin|Hout].
    + apply list_elem_of_fmap in Hin as (r & -> & Hr).
      by rewrite (filter_chave_unica lm_id).
    + by rewrite (filter_chave_ausente lm_id).
Qed.

Lemma estatisticas_contam_exemplo :
  NoDup (ids_musica (musicas bd_exemplo))
  ∧ obter_estatisticas bd_exemplo
    = {| e_artistas := e_artistas (obter_estatisticas (deletar_musica 1 bd_exemplo).2);
         e_generos := e_generos (obter_estatisticas (deletar_musica 1 bd_exemplo).2);
         e_musicas := e_musicas (obter_estatisticas (deletar_musica 1 bd_exemplo).2)
                      + (if (deletar_musica 1 bd_exemplo).1 then 1 else 0) |}.
Proof.
  assert (Hnd : NoDup (ids_musica (musicas bd_exemplo)))
    by (by apply (bool_decide_unpack _)).
  split; [done|].
  destruct (estatisticas_contam bd_exemplo) as (_ & _ & _ & _ & H).
  exact (H 1%Z Hnd).
Defined.

(** ** Updates: edge cases *)

Lemma fmap_condicional_id {A} (P : A → Prop) `{∀ x, Decision (P x)}
    (g : A → A) (l : list A) :
  (∀ x, x ∈ l → P x → g x = x) → (λ x, if decide (P x) then g x else x) <$> l = l.
Proof.
  intros Hg. induction l as [|x l IH]; [done|]. rewrite fmap_cons, IH.
  - case_decide; [|done]. rewrite Hg; [done|left|done].
  - intros y Hy. apply Hg. by right.
Qed.

(** X8: [atualizar_musica] on an id that no track has returns [False] and
    leaves the store as it was, whatever fields are given. *)
Theorem atualizar_musica_id_ausente (i : Z) (t u : option string) (a g : option Z)
    (bd : BancoDeDadosMusica) :
  i ∉ ids_musica (musicas bd) →
  atualizar_musica i t u a g bd = (false, bd).
Proof.
  intros Hi. unfold atualizar_musica.
  destruct (updates_de t u a g) as [|s sets]; [done|].
  unfold update_musica. rewrite (filter_chave_ausente lm_id) by done. simpl.
  rewrite andb_false_r. rewrite fmap_condicional_id.
  - by destruct bd as [c ta tg [l s']].
  - intros r Hr Hri. exfalso. apply Hi. rewrite <-Hri.
    by apply (list_elem_of_fmap_2 lm_id).
Qed.

Lemma atualizar_musica_id_ausente_exemplo :
  (7%Z ∉ ids_musica (musicas bd_exemplo))
  ∧ atualizar_musica 7 (Some "Z") (Some "u7") (Some 1%Z) None bd_exemplo
    = (false, bd_exemplo).
Proof.
  assert (H : 7%Z ∉ ids_musica (musicas bd_exemplo))
    by (by apply (bool_decide_unpack _)).
  split; [done|].
  exact (atualizar_musica_id_ausente 7 (Some "Z") (Some "u7") (Some 1%Z) None
           bd_exemplo H).
Defined.

(** The url a row has after the assignments of [atualizar_musica]: the url
    given, if one is given, and its own otherwise. *)
Lemma url_atualizada (t u : option string) (a g : option Z) (r : LinhaMusica) :
  lm_url (atribuir_todas (updates_de t u a g) r)
  = default (lm_url r) (texto_dado u).
Proof.
  unfold updates_de, atribuir_todas.
  by destruct (texto_dado t), (texto_dado u), (inteiro_dado a), (inteiro_dado g).
Qed.

Lemma atualizar_musica_falso (i : Z) (t u : option string) (a g : option Z)
    (bd : BancoDeDadosMusica) :
  (atualizar_musica i t u a g bd).1 = false →
  (atualizar_musica i t u a g bd).2 = bd.
Proof.
  unfold atualizar_musica.
  destruct (updates_de t u a g) as [|s sets]; [done|].
  unfold update_musica. destruct (existsb _ _); [done|].
  destruct (_ && _); [done|]. cbn [fst snd].
  intros H%bool_decide_eq_false.
  destruct (filter _ _) as [|r l] eqn:Hf; [|simpl in H; lia].
  rewrite fmap_condicional_id; [by destruct bd as [c ta tg [l s']]|].
  intros r Hr Hri.
  assert (r ∈ filter (λ r, lm_id r = i) (linhas (musicas bd))) as Hin
    by by apply list_elem_of_filter.
  rewrite Hf in Hin. by apply not_elem_of_nil in Hin.
Qed.

(** X9: in a store that meets the engine's constraints and has the
    foreign-key check off (as every store opened by [conectar] has),
    [atualizar_musica] returns [True] exactly when at least one field is
    given, the id is that of a track, and the url given (if one is) is held
    by no other track.  Whenever it returns [False] the store is as it was. *)
Theorem atualizar_musica_verdadeiro (i : Z) (t u : option string) (a g : option Z)
    (bd : BancoDeDadosMusica) :
  integro bd → foreign_keys (conexao bd) = false →
  ((atualizar_musica i t u a g bd).1 = true
   ↔ updates_de t u a g ≠ []
     ∧ i ∈ ids_musica (musicas bd)
     ∧ ∀ v o, texto_dado u = Some v → o ∈ linhas (musicas bd) →
              lm_url o = v → lm_id o = i)
  ∧ ((atualizar_musica i t u a g bd).1 = false →
     (atualizar_musica i t u a g bd).2 = bd).
Proof.
  intros Hbd Hfk. split; [|apply atualizar_musica_falso].
  pose proof (integro_ids_musicas _ Hbd) as Hids.
  pose proof (integro_urls _ Hbd) as Hurls.
  unfold atualizar_musica.
  pose proof (url_atualizada t u a g) as Hurl.
  destruct (updates_de t u a g) as [|s sets] eqn:Hup; [by split; [|intros []]|].
  unfold update_musica. rewrite Hfk, andb_false_l.
  destruct (decide (i ∈ ids_musica (musicas bd))) as [Hin|Hout]; cycle 1.
  { rewrite (filter_chave_ausente lm_id) by done. simpl.
    split; [done|]. by intros (_ & ? & _). }
  apply list_elem_of_fmap in Hin as (r & -> & Hr).
  rewrite (filter_chave_unica lm_id) by done.
  cbn [existsb length]. rewrite orb_false_r.
  assert (Hri : lm_id r ∈ ids_musica (musicas bd))
    by by apply (list_elem_of_fmap_2 lm_id).
  destruct (url_em_conflito _ _ _ _) eqn:Hc; cbn [fst].
  - split; [done|]. intros (_ & _ & Hlivre). exfalso.
    apply andb_true_iff in Hc as [Hdif%bool_decide_eq_true Hex%bool_decide_eq_true].
    rewrite Hurl in Hdif, Hex.
    destruct (texto_dado u) as [v|]; [|done]. simpl in *.
    apply Exists_exists in Hex as (o & Ho & Hoi & Hov). by apply Hoi, (Hlivre v).
  - split; [|done]. intros _. split; [done|]. split; [done|].
    intros v o Hv Ho Hov.
    apply andb_false_iff in Hc as [Hc%bool_decide_eq_false|Hc%bool_decide_eq_false];
      rewrite Hurl, Hv in Hc; simpl in Hc.
    + assert (Heq : lm_url r = lm_url o).
      { destruct (decide (lm_url r = lm_url o)); [done|]. exfalso. apply Hc.
        congruence. }
      assert (Some r = Some o) as [= ->]; [|done].
      rewrite <-(proj2 (fetchone_chave lm_url _ (lm_url o) r Hurls) (conj Hr Heq)).
      by apply (fetchone_chave lm_url).
    + destruct (decide (lm_id o = lm_id r)); [done|]. exfalso. apply Hc.
      apply Exists_exists. by exists o.
Qed.

Lemma atualizar_musica_verdadeiro_exemplo :
  integro bd_exemplo ∧ foreign_keys (conexao bd_exemplo) = false
  ∧ (atualizar_musica 1 None (Some "u2") None None bd_exemplo).1 = false
  ∧ (atualizar_musica 1 None (Some "u2") None None bd_exemplo).2 = bd_exemplo.
Proof.
  assert (Hi : integro bd_exemplo) by apply alcancavel_integro, bd_exemplo_alcancavel.
  assert (Hf : foreign_keys (conexao bd_exemplo) = false) by reflexivity.
  split; [done|]. split; [done|]. split; [reflexivity|].
  exact (proj2 (atualizar_musica_verdadeiro 1 None (Some "u2") None None
                  bd_exemplo Hi Hf) eq_refl).
Defined.

Lemma bind_vazio {A B} (f : A → list B) (l : list A) :
  (∀ x, x ∈ l → f x = []) → l ≫= f = [].
Proof.
  induction l as [|x l IH]; intros H; [done|].
  rewrite bind_cons, (H x) by left. apply IH. intros y Hy. apply H. by right.
Qed.

(** X10: [atualizar_musica] does not check that the new artist exists.  In
    a store that meets the engine's constraints, with the foreign-key check
    off, giving a track the id of no artist returns [True]; the track stays
    in the table, but [obter_musica_por_id] no longer finds it and no
    listing of all tracks shows it. *)
Theorem atualizar_para_artista_inexistente (i a : Z) (bd : BancoDeDadosMusica) :
  integro bd → foreign_keys (conexao bd) = false →
  i ∈ ids_musica (musicas bd) → a ≠ 0%Z → a ∉ ids_nome (artistas bd) →
  ∃ bd',
    atualizar_musica i None None (Some a) None bd = (true, bd')
    ∧ i ∈ ids_musica (musicas bd')
    ∧ obter_musica_por_id i bd' = None
    ∧ (∀ d, d ∈ obter_todas_musicas bd' → d_id d ≠ i).
Proof.
  intros Hbd Hfk Hi Ha Hout.
  pose proof (integro_ids_musicas _ Hbd) as Hids.
  apply list_elem_of_fmap in Hi as (r & -> & Hr).
  unfold atualizar_musica, updates_de. simpl.
  rewrite decide_False by done. simpl. unfold update_musica.
  rewrite Hfk, andb_false_l, (filter_chave_unica lm_id) by done.
  cbn [existsb length]. unfold url_em_conflito at 1. simpl.
  rewrite bool_decide_eq_false_2 by (by intros H; apply H). simpl.
  eexists. split; [done|].
  set (g := λ r0 : LinhaMusica, if decide (lm_id r0 = lm_id r) then _ else r0).
  assert (Hg : ∀ m, m ∈ g <$> linhas (musicas bd) → lm_id m = lm_id r →
                    lm_artista_id m = a).
  { intros m (r0 & -> & Hr0)%list_elem_of_fmap. unfold g. by case_decide. }
  cbn [com_musicas musicas linhas]. split; [|split].
  - apply list_elem_of_fmap. exists (g r). split.
    + unfold g. by rewrite decide_True.
    + by apply list_elem_of_fmap_2.
  - rewrite obter_musica_por_id_linhas.
    cbn [com_musicas musicas linhas artistas generos].
    rewrite bind_vazio; [done|].
    intros m [Hm Hin]%list_elem_of_filter. unfold juntar.
    rewrite (Hg m Hin Hm).
    by rewrite (filter_chave_ausente ln_id (linhas (artistas bd)) a Hout).
  - intros d Hd%obter_todas_musicas_elem Hdi.
    apply juncao_elem in Hd as (m & a0 & g0 & Hm & Ha0 & Hida & _ & _ & ->).
    cbn [com_musicas musicas linhas artistas] in Hm, Ha0. simpl in Hdi.
    apply Hout. rewrite <-(Hg m Hm Hdi), <-Hida.
    by apply (list_elem_of_fmap_2 ln_id).
Qed.

Lemma atualizar_para_artista_inexistente_exemplo :
  (integro bd_exemplo ∧ foreign_keys (conexao bd_exemplo) = false
   ∧ 1%Z ∈ ids_musica (musicas bd_exemplo) ∧ 9%Z ≠ 0%Z
   ∧ 9%Z ∉ ids_nome (artistas bd_exemplo))
  ∧ ∃ bd',
      atualizar_musica 1 None None (Some 9%Z) None bd_exemplo = (true, bd')
      ∧ 1%Z ∈ ids_musica (musicas bd')
      ∧ obter_musica_por_id 1 bd' = None
      ∧ (∀ d, d ∈ obter_todas_musicas bd' → d_id d ≠ 1%Z).
Proof.
  assert (H1 : integro bd_exemplo) by apply alcancavel_integro, bd_exemplo_alcancavel.
  assert (H2 : foreign_keys (conexao bd_exemplo) = false) by reflexivity.
  assert (H3 : 1%Z ∈ ids_musica (musicas bd_exemplo))
    by (by apply (bool_decide_unpack _)).
  assert (H4 : 9%Z ≠ 0%Z) by lia.
  assert (H5 : 9%Z ∉ ids_nome (artistas bd_exemplo))
    by (by apply (bool_decide_unpack _)).
  split; [done|].
  exact (atualizar_para_artista_inexistente 1 9 bd_exemplo H1 H2 H3 H4 H5).
Defined.

(** ** Search terms *)

Lemma minuscula_propriedades (c : ascii) :
  Ascii.eqb (minuscula c) "%" = Ascii.eqb c "%"
  ∧ Ascii.eqb (minuscula c) "_" = Ascii.eqb c "_"
  ∧ minuscula (minuscula c) = minuscula c.
Proof. by destruct c as [[] [] [] [] [] [] [] []]. Qed.

(** [LIKE] does not tell a pattern from the pattern in lower case. *)
Lemma like_minusculas (p s : string) : like (minusculas p) s = like p s.
Proof.
  revert s. induction p as [|c p IH]; intros s; [done|].
  destruct (minuscula_propriedades c) as (H1 & H2 & H3).
  cbn [minusculas like]. rewrite H1, H2, H3.
  destruct (Ascii.eqb c "%").
  - induction s as [|d s IHs]; [by rewrite IH|]. by rewrite IH, IHs.
  - destruct (Ascii.eqb c "_"); destruct s as [|d s]; by rewrite ?IH.
Qed.

Lemma like_tudo (s : string) : like "%%" s = true.
Proof. induction s as [|d s IH]; [done|]. simpl in *. by rewrite IH, !orb_true_r. Qed.

(** X11: two search terms that differ only in the case of the letters
    [A]-[Z] give the same result, wildcards or not; and the empty term gives
    the listing of all tracks. *)
Theorem buscar_musicas_termo (bd : BancoDeDadosMusica) :
  (∀ t1 t2, minusculas t1 = minusculas t2 →
            buscar_musicas t1 bd = buscar_musicas t2 bd)
  ∧ buscar_musicas "" bd = obter_todas_musicas bd.
Proof.
  split.
  - intros t1 t2 Ht. unfold buscar_musicas. f_equal.
    assert (Hp : ∀ s, like ("%" +:+ t1 +:+ "%") s = like ("%" +:+ t2 +:+ "%") s).
    { intros s. rewrite <-(like_minusculas ("%" +:+ t1 +:+ "%")).
      rewrite <-(like_minusculas ("%" +:+ t2 +:+ "%")).
      by rewrite !minusculas_app, Ht. }
    apply list_filter_iff. intros d. by rewrite !Hp.
  - unfold buscar_musicas, obter_todas_musicas. f_equal.
    apply filter_todos. intros d _. by rewrite like_tudo.
Qed.

(** * Further properties of the catalogue *)

(** The rows of a key that the table had are the same after get-or-create. *)
Lemma obter_ou_criar_filter (nome : string) (t : Tabela LinhaNome) (k : Z) :
  k ∈ ids_nome t →
  filter (λ r, ln_id r = k) (linhas (obter_ou_criar nome t).2)
  = filter (λ r, ln_id r = k) (linhas t).
Proof.
  intros Hk. unfold obter_ou_criar, insert_nome. case_decide; [done|]. simpl.
  rewrite filter_app, filter_cons_False, filter_nil, app_nil_r; [done|].
  simpl. intros <-. by apply (proximo_rowid_fresco (ids_nome t) (seq t)).
Qed.

Lemma obter_ou_criar_linha (nome : string) (t : Tabela LinhaNome) :
  NoDup (nomes t) →
  ∃ i, (obter_ou_criar nome t).1 = Some i
       ∧ {| ln_id := i; ln_nome := nome |} ∈ linhas (obter_ou_criar nome t).2.
Proof.
  intros Hnd.
  destruct (obter_ou_criar_duas_vezes nome t Hnd) as (i & t' & Hrun & _ & Hf & _).
  exists i. rewrite Hrun. split; [done|]. simpl.
  assert ({| ln_id := i; ln_nome := nome |}
          ∈ filter (λ r, ln_nome r = nome) (linhas t')) as Hin
    by (rewrite Hf; left).
  by apply list_elem_of_filter in Hin as [_ ?].
Qed.

Lemma obter_ou_criar_ids_mantem (nome : string) (t : Tabela LinhaNome) (k : Z) :
  k ∈ ids_nome t → k ∈ ids_nome (obter_ou_criar nome t).2.
Proof.
  intros (r & -> & Hr)%list_elem_of_fmap.
  by apply (list_elem_of_fmap_2 ln_id), obter_ou_criar_mantem.
Qed.

Lemma bind_ext_elem {A B} (f g : A → list B) (l : list A) :
  (∀ x, x ∈ l → f x = g x) → l ≫= f = l ≫= g.
Proof.
  induction l as [|x l IH]; intros H; [done|].
  rewrite !bind_cons, (H x) by left. rewrite IH; [done|].
  intros y Hy. apply H. by right.
Qed.

(** The two get-or-create calls that open [CatalogoMusical.adicionar_musica],
    in a store where every track has its artist and its genre: both return
    an id, the rows of these ids and names are stored, and the tracks and
    their joined rows are as before. *)
Lemma artista_e_genero (artista genero : string) (bd : BancoDeDadosMusica) :
  integro bd → referencias_validas bd →
  ∃ ia ig bd1 bd2,
    adicionar_artista artista bd = (Some ia, bd1)
    ∧ adicionar_genero genero bd1 = (Some ig, bd2)
    ∧ integro bd2 ∧ referencias_validas bd2
    ∧ musicas bd2 = musicas bd
    ∧ {| ln_id := ia; ln_nome := artista |} ∈ linhas (artistas bd2)
    ∧ {| ln_id := ig; ln_nome := genero |} ∈ linhas (generos bd2)
    ∧ juncao bd2 = juncao bd.
Proof.
  intros Hbd Hrefs.
  pose proof (adicionar_artista_integro artista bd Hbd) as Hbd1.
  pose proof (adicionar_genero_integro genero _ Hbd1) as Hbd2.
  destruct (obter_ou_criar_linha artista (artistas bd)) as (ia & Hia & Hra);
    [apply Hbd|].
  destruct (obter_ou_criar_linha genero (generos bd)) as (ig & Hig & Hrg);
    [apply Hbd|].
  exists ia, ig, (adicionar_artista artista bd).2,
    (adicionar_genero genero (adicionar_artista artista bd).2).2.
  revert Hbd1 Hbd2. rewrite adicionar_genero_tabela, adicionar_artista_tabela.
  cbn [fst snd com_artistas com_generos artistas generos musicas conexao].
  rewrite Hia, Hig. intros Hbd1 Hbd2.
  assert (Hpais : ∀ m, m ∈ linhas (musicas bd) →
            lm_artista_id m ∈ ids_nome (artistas bd)
            ∧ lm_genero_id m ∈ ids_nome (generos bd)).
  { intros m Hm. specialize (Hrefs m Hm). unfold pais_existem in Hrefs.
    apply andb_true_iff in Hrefs as [?%bool_decide_eq_true ?%bool_decide_eq_true].
    done. }
  split; [done|]. split; [done|]. split; [done|]. split; [|split; [done|]].
  - intros m Hm. destruct (Hpais m Hm) as [Ha Hg]. unfold pais_existem. simpl.
    apply andb_true_iff.
    split; apply bool_decide_eq_true; by apply obter_ou_criar_ids_mantem.
  - split; [done|]. split; [done|]. unfold juncao. simpl.
    apply bind_ext_elem. intros m Hm. destruct (Hpais m Hm) as [Ha Hg].
    unfold juntar. by rewrite !obter_ou_criar_filter.
Qed.

(** [CatalogoMusical.adicionar_musica] keeps the store within the engine's
    constraints and every track with its artist and its genre. *)
Lemma catalogo_adicionar_coerente (titulo url artista genero : string)
    (c : CatalogoMusical) :
  catalogo_coerente c →
  catalogo_coerente (CatalogoMusical_adicionar_musica titulo url artista genero c).2.
Proof.
  intros [Hbd Hrefs].
  destruct (artista_e_genero artista genero (db c) Hbd Hrefs)
    as (ia & ig & bd1 & bd2 & Ha & Hg & Hbd2 & Hrefs2 & Hm & Hra & Hrg & Hj).
  unfold CatalogoMusical_adicionar_musica, catalogo_coerente.
  rewrite Ha, Hg. cbn [adicionar_musica_ids].
  pose proof (adicionar_musica_integro ia titulo url ig bd2 Hbd2) as Hbd3.
  revert Hbd3. unfold adicionar_musica, insert_musica.
  case_decide; [done|].
  assert (Hpais : pais_existem bd2 ia ig = true).
  { unfold pais_existem. apply andb_true_iff. split; apply bool_decide_eq_true.
    - by apply (list_elem_of_fmap_2 ln_id) in Hra.
    - by apply (list_elem_of_fmap_2 ln_id) in Hrg. }
  rewrite Hpais, andb_false_r. cbn [fst snd db]. intros Hbd3.
  split; [done|]. intros r. cbn [com_musicas musicas linhas].
  intros [Hr|Hr]%elem_of_app; [by apply Hrefs2|].
  by apply list_elem_of_singleton in Hr as ->.
Qed.

(** X12: [CatalogoMusical.adicionar_musica] in a catalogue whose tracks all
    have their artist and genre leaves such a catalogue.  With a url that no
    track has, the listing of all tracks afterwards holds the [Musica]
    returned and the records it held before, and nothing else.  With a url
    that a track already has, the [Musica] returned has the id [None] and is
    appended to [_musicas] all the same, the listing is as before, and the
    artist and the genre named are stored although no track was. *)
Theorem catalogo_adicionar_musica_correto (titulo url artista genero : string)
    (c : CatalogoMusical) :
  catalogo_coerente c →
  catalogo_coerente (CatalogoMusical_adicionar_musica titulo url artista genero c).2
  ∧ (url ∉ urls (musicas (db c)) →
     CatalogoMusical_buscar_musicas
       (CatalogoMusical_adicionar_musica titulo url artista genero c).2
     ≡ₚ (CatalogoMusical_adicionar_musica titulo url artista genero c).1
        :: CatalogoMusical_buscar_musicas c)
  ∧ (url ∈ urls (musicas (db c)) →
     m_id (CatalogoMusical_adicionar_musica titulo url artista genero c).1 = None
     ∧ _musicas (CatalogoMusical_adicionar_musica titulo url artista genero c).2
       = _musicas c
         ++ [(CatalogoMusical_adicionar_musica titulo url artista genero c).1]
     ∧ CatalogoMusical_buscar_musicas
         (CatalogoMusical_adicionar_musica titulo url artista genero c).2
       = CatalogoMusical_buscar_musicas c
     ∧ artista ∈ nomes (artistas
         (db (CatalogoMusical_adicionar_musica titulo url artista genero c).2))
     ∧ genero ∈ nomes (generos
         (db (CatalogoMusical_adicionar_musica titulo url artista genero c).2))).
Proof.
  intros Hc. split; [by apply catalogo_adicionar_coerente|].
  destruct Hc as [Hbd Hrefs].
  destruct (artista_e_genero artista genero (db c) Hbd Hrefs)
    as (ia & ig & bd1 & bd2 & Ha & Hg & Hbd2 & Hrefs2 & Hm & Hra & Hrg & Hj).
  unfold CatalogoMusical_adicionar_musica, CatalogoMusical_buscar_musicas.
  rewrite Ha, Hg. cbn [adicionar_musica_ids].
  destruct (decide (url ∈ urls (musicas (db c)))) as [Hu|Hu].
  - rewrite adicionar_musica_url_repetida by (by rewrite Hm).
    cbn [fst snd db _musicas m_id]. split; [done|]. intros _.
    split; [done|]. split; [done|]. split.
    + unfold obter_todas_musicas. by rewrite Hj.
    + split.
      * by apply (list_elem_of_fmap_2 ln_nome) in Hra.
      * by apply (list_elem_of_fmap_2 ln_nome) in Hrg.
  - unfold adicionar_musica, insert_musica.
    rewrite decide_False by (by rewrite Hm).
    assert (Hpais : pais_existem bd2 ia ig = true).
    { unfold pais_existem. apply andb_true_iff. split; apply bool_decide_eq_true.
      - by apply (list_elem_of_fmap_2 ln_id) in Hra.
      - by apply (list_elem_of_fmap_2 ln_id) in Hrg. }
    rewrite Hpais, andb_false_r. cbn [fst snd db _musicas m_id].
    set (i := proximo_rowid (ids_musica (musicas bd2)) (seq (musicas bd2))) in *.
    set (m := {| lm_id := i; lm_artista_id := ia; lm_titulo := titulo;
                 lm_url := url; lm_genero_id := ig |}) in *.
    split; [|done]. intros _. unfold obter_todas_musicas.
    rewrite (proj1 (order_by_correto ordem_artista_titulo _)).
    rewrite (proj1 (order_by_correto ordem_artista_titulo (juncao (db c)))).
    rewrite <-Hj. unfold juncao at 1.
    cbn [com_musicas musicas linhas artistas generos].
    rewrite bind_app, fmap_app. fold (juncao bd2).
    rewrite bind_singleton. unfold juntar. cbn [lm_artista_id lm_genero_id m].
    change ia with (ln_id {| ln_id := ia; ln_nome := artista |}).
    rewrite (filter_chave_unica ln_id) by (apply Hbd2 || done).
    rewrite bind_singleton.
    change ig with (ln_id {| ln_id := ig; ln_nome := genero |}).
    rewrite (filter_chave_unica ln_id) by (apply Hbd2 || done).
    rewrite bind_singleton. simpl.
    by rewrite Permutation_app_comm.
Qed.

Lemma catalogo_exemplo_coerente : catalogo_coerente catalogo_exemplo.
Proof.
  split; [apply alcancavel_integro, bd_exemplo_alcancavel|].
  intros m Hm. by repeat (apply elem_of_cons in Hm as [->|Hm]; [done|]);
    apply not_elem_of_nil in Hm.
Qed.

Lemma catalogo_adicionar_musica_correto_exemplo :
  let r := CatalogoMusical_adicionar_musica "Z" "u1" "C" "H" catalogo_exemplo in
  catalogo_coerente catalogo_exemplo
  ∧ "u1" ∈ urls (musicas (db catalogo_exemplo))
  ∧ m_id r.1 = None
  ∧ CatalogoMusical_buscar_musicas r.2 = CatalogoMusical_buscar_musicas catalogo_exemplo
  ∧ "C" ∈ nomes (artistas (db r.2)).
Proof.
  intros r.
  assert (Hu : "u1" ∈ urls (musicas (db catalogo_exemplo)))
    by (by apply (bool_decide_unpack _)).
  split; [apply catalogo_exemplo_coerente|]. split; [done|].
  destruct (catalogo_adicionar_musica_correto "Z" "u1" "C" "H" catalogo_exemplo
              catalogo_exemplo_coerente) as (_ & _ & H).
  destruct (H Hu) as (H1 & _ & H3 & H4 & _). done.
Defined.

(** * Further properties of the player and the service *)

Lemma filter_fmap_comuta {A B} (f : A → B) (P : B → Prop) `{∀ y, Decision (P y)}
    (l : list A) :
  filter P (f <$> l) = f <$> filter (λ x, P (f x)) l.
Proof.
  induction l as [|x l IH]; [done|]. rewrite fmap_cons, !filter_cons, IH.
  by case_decide.
Qed.

(** The tracks of one selection, as the catalogue returns them: one
    [Musica] for each selected row of [musicas], in order of title. *)
Lemma buscar_selecao (P : LinhaMusica → Prop) `{∀ r, Decision (P r)}
    (bd : BancoDeDadosMusica) :
  integro bd → referencias_validas bd →
  ((λ m, (m_titulo m, m_url m))
     <$> (musica_de_dict
            <$> order_by ordem_titulo (filter (λ d, P (linha_de_dict d)) (juncao bd)))
   ≡ₚ (λ r, (lm_titulo r, lm_url r)) <$> filter P (linhas (musicas bd)))
  ∧ StronglySorted ordem_titulo_musica
      (musica_de_dict
         <$> order_by ordem_titulo (filter (λ d, P (linha_de_dict d)) (juncao bd))).
Proof.
  intros Hbd Hrefs.
  destruct (order_by_correto ordem_titulo
              (filter (λ d, P (linha_de_dict d)) (juncao bd))) as [Hp Hs].
  split; [|by apply (StronglySorted_fmap _ ordem_titulo ordem_titulo_musica)].
  assert (Hl : linhas (musicas bd) = linha_de_dict <$> juncao bd).
  { rewrite juncao_linhas by apply Hbd. by rewrite referencias_validas_filter. }
  rewrite Hp, <-list_fmap_compose, Hl, filter_fmap_comuta, <-list_fmap_compose.
  done.
Qed.

(** [Player.tocar_musicas] on a list object: the list is shuffled in place
    when asked for, becomes the playlist, and is played track by track. *)
Lemma tocar_musicas_lista (w : Mundo) (ref : nat) (l : list Musica)
    (aleatorio : bool) :
  objetos w !! ref = Some l →
  ∃ l' evs w',
    Player_tocar_musicas [PyList ref; PyBool aleatorio] w = (Retorna (), w')
    ∧ l' ≡ₚ l
    ∧ (aleatorio = false → l' = l)
    ∧ catalogo (servico w') = catalogo (servico w)
    ∧ saida w' = saida w ++ evs
    ∧ comandos evs
      = (λ m, command (m_url m) (video (player (servico w)))
                      (volume (player (servico w)))) <$> l'
    ∧ (l = [] → evs = [Print "Playlist vazia!"]).
Proof.
  intros Hl.
  assert (∃ l' ac',
            (if aleatorio then shuffle (PyList ref) else passar) w
            = (Retorna (),
               {| servico := servico w; objetos := <[ref := l']> (objetos w);
                  saida := saida w; acaso := ac'; mpv := mpv w |})
            ∧ l' ≡ₚ l ∧ (aleatorio = false → l' = l))
    as (l' & ac' & Hsh & Hperm & Hmesma).
  { destruct aleatorio.
    - destruct (shuffle_de_permuta ref (length l - 1) w l Hl)
        as (l' & ac' & Hsh & Hperm).
      { destruct l; simpl; [by right|left; lia]. }
      exists l', ac'. split; [|done].
      unfold shuffle, ler_lista, mbind, M_bind. by rewrite Hl.
    - exists l, (acaso w). split; [|done].
      rewrite list_insert_id by done. by destruct w. }
  assert (Href : ref < length (objetos w)) by (by eapply lookup_lt_Some).
  set (w2 := {| servico := {| catalogo := catalogo (servico w);
                              player := {| video := video (player (servico w));
                                           volume := volume (player (servico w));
                                           _playlist_atual := PyList ref |} |};
                objetos := <[ref := l']> (objetos w); saida := saida w;
                acaso := ac'; mpv := mpv w |}).
  destruct (Player_tocar_playlist_emite w2 ref l') as (evs & w' & Hrun & Hc & Hvazia).
  { done. }
  { simpl. by rewrite list_lookup_insert_eq. }
  destruct Hrun as (R & S & O & E).
  exists l', evs, w'. split.
  { unfold Player_tocar_musicas, def2, verdadeiro, Player_criar_playlist,
      obter_player, gravar_player, mbind, M_bind, mret, M_ret.
    rewrite Hsh. simpl. exact R. }
  split; [done|]. split; [done|]. split; [by rewrite S|].
  split; [by rewrite E|]. split; [done|].
  intros ->. apply Hvazia. by apply Permutation_nil_r in Hperm.
Qed.

(** The body that [tocar_por_artista] and [tocar_por_genero] share: the
    tracks found go into a new list object, which is handed to the player. *)
Lemma tocar_selecao (P : LinhaMusica → Prop) `{∀ r, Decision (P r)}
    (aleatorio : bool) (w : Mundo) :
  catalogo_coerente (catalogo (servico w)) →
  ∃ l' evs w',
    (musicas ← nova_lista
       (musica_de_dict
          <$> order_by ordem_titulo
                (filter (λ d, P (linha_de_dict d))
                        (juncao (db (catalogo (servico w))))));
     Player_tocar_musicas [musicas; PyBool aleatorio]) w = (Retorna (), w')
    ∧ catalogo (servico w') = catalogo (servico w)
    ∧ saida w' = saida w ++ evs
    ∧ comandos evs
      = (λ m, command (m_url m) (video (player (servico w)))
                      (volume (player (servico w)))) <$> l'
    ∧ ((λ m, (m_titulo m, m_url m)) <$> l'
       ≡ₚ (λ r, (lm_titulo r, lm_url r))
            <$> filter P (linhas (musicas (db (catalogo (servico w))))))
    ∧ (aleatorio = false → StronglySorted ordem_titulo_musica l')
    ∧ (filter P (linhas (musicas (db (catalogo (servico w))))) = [] →
       evs = [Print "Playlist vazia!"]).
Proof.
  intros [Hbd Hrefs].
  destruct (buscar_selecao P (db (catalogo (servico w))) Hbd Hrefs) as [Hp Hs].
  set (l := musica_de_dict <$> _) in *.
  set (w1 := {| servico := servico w; objetos := objetos w ++ [l];
                saida := saida w; acaso := acaso w; mpv := mpv w |}).
  destruct (tocar_musicas_lista w1 (length (objetos w)) l aleatorio)
    as (l' & evs & w' & Hrun & Hperm & Hmesma & Hcat & Hsaida & Hcmd & Hvazia).
  { simpl. by rewrite list_lookup_middle. }
  exists l', evs, w'. split.
  { unfold nova_lista, mbind, M_bind. exact Hrun. }
  split; [done|]. split; [done|]. split; [done|].
  split; [by rewrite Hperm|]. split; [by intros ->%Hmesma|].
  intros Hnil. apply Hvazia. rewrite Hnil in Hp. simpl in Hp.
  apply Permutation_nil_r in Hp. by apply fmap_nil_inv in Hp.
Qed.





(** * Further properties of the user interface *)

Lemma com_saida_nil (w : Mundo) : com_saida [] w = w.
Proof. destruct w. unfold com_saida; simpl. by rewrite app_nil_r. Qed.

Lemma com_saida_app (e1 e2 : list Evento) (w : Mundo) :
  com_saida e2 (com_saida e1 w) = com_saida (e1 ++ e2) w.
Proof. unfold com_saida; simpl. by rewrite (assoc_L (++)). Qed.

Lemma comandos_app (e1 e2 : list Evento) :
  comandos (e1 ++ e2) = comandos e1 ++ comandos e2.
Proof. apply omap_app. Qed.

Lemma comandos_prints (textos : list string) : comandos (Print <$> textos) = [].
Proof. by induction textos. Qed.

(** A loop whose body only prints. *)
Lemma para_cada_imprime {A} (corpo : A → M unit) (f : A → string)
    (l : list A) (w : Mundo) :
  (∀ x w, corpo x w = print (f x) w) →
  para_cada l corpo w = (Retorna (), com_saida (Print <$> (f <$> l)) w).
Proof.
  intros Hcorpo. revert w. induction l as [|x l IH]; intros w.
  - simpl. by rewrite com_saida_nil.
  - cbn [para_cada]. unfold mbind, M_bind. rewrite Hcorpo. cbn [print emitir].
    fold (com_saida [Print (f x)] w). by rewrite IH, com_saida_app.
Qed.

(** [selecionar_opcao] only prints its menu. *)
Lemma selecionar_opcao_executa {A} `{Str A} (opcoes : list A) (titulo : string)
    (escolha : option Z) (w : Mundo) :
  ∃ textos,
    InterfaceUsuario_selecionar_opcao opcoes titulo escolha w
    = (Retorna (opcao_escolhida opcoes escolha), com_saida (Print <$> textos) w).
Proof.
  unfold InterfaceUsuario_selecionar_opcao.
  set (f := λ p : nat * A, "[" +:+ pretty p.1 +:+ "] " +:+ str p.2).
  exists ([nl +:+ "=== " +:+ titulo +:+ " ==="]
          ++ (f <$> imap (λ i opcao, (S i, opcao)) opcoes)
          ++ ["[" +:+ pretty (length opcoes + 1) +:+ "] Cancelar"]).
  unfold mbind, M_bind. cbn [print emitir].
  fold (com_saida [Print (nl +:+ "=== " +:+ titulo +:+ " ===")] w).
  rewrite (para_cada_imprime _ f) by (by intros [i o] w0).
  cbn [com_saida servico objetos saida acaso mpv]. unfold mret, M_ret, com_saida.
  rewrite !fmap_app. simpl. by rewrite <-!(assoc_L (++)).
Qed.

Lemma opcao_escolhida_elem {A} (opcoes : list A) (escolha : option Z) (x : A) :
  opcao_escolhida opcoes escolha = Some x → x ∈ opcoes.
Proof.
  unfold opcao_escolhida. destruct escolha as [e|]; [|done].
  case_bool_decide; [|done]. apply list_elem_of_lookup_2.
Qed.

(** The tracks found for a selection are played from a world that differs
    only in the events so far. *)
Lemma tocar_selecao_depois (P : LinhaMusica → Prop) `{∀ r, Decision (P r)}
    (aleatorio : bool) (w : Mundo) (textos : list string) :
  catalogo_coerente (catalogo (servico w)) →
  ∃ evs w',
    (musicas ← nova_lista
       (musica_de_dict
          <$> order_by ordem_titulo
                (filter (λ d, P (linha_de_dict d))
                        (juncao (db (catalogo (servico w))))));
     Player_tocar_musicas [musicas; PyBool aleatorio])
      (com_saida (Print <$> textos) w) = (Retorna (), w')
    ∧ catalogo (servico w') = catalogo (servico w)
    ∧ saida w' = saida w ++ evs
    ∧ toca_selecao P aleatorio w evs.
Proof.
  intros Hc.
  destruct (tocar_selecao P aleatorio (com_saida (Print <$> textos) w) Hc)
    as (l' & evs & w' & Hrun & Hcat & Hsaida & Hcmd & Hperm & Hord & _).
  exists ((Print <$> textos) ++ evs), w'. split; [exact Hrun|].
  split; [done|]. split; [by rewrite Hsaida, (assoc_L (++))|].
  exists l'. split; [|done].
  by rewrite comandos_app, comandos_prints, Hcmd.
Qed.

(** X15: one turn of the menu with the choice [5], in a catalogue whose
    tracks all have their artist and genre.  The turn returns normally and
    leaves the catalogue as it was.  When the number typed is that of an
    entry of the menu of artists, the stored tracks of that artist, and no
    other, are played, shuffled or not as the answer to the shuffle prompt
    says; with any other answer (the entry [Cancelar], a number out of
    range, or no number) nothing is played; and with no artist stored the
    turn prints only its report. *)
Theorem menu_tocar_por_artista (ativar : string) (escolha : option Z) (w : Mundo) :
  catalogo_coerente (catalogo (servico w)) →
  ∃ evs w',
    InterfaceUsuario_executar_opcao_5 ativar escolha w = (Retorna (), w')
    ∧ catalogo (servico w') = catalogo (servico w)
    ∧ saida w' = saida w ++ evs
    ∧ match opcao_escolhida
              (CatalogoMusical_listar_artistas (catalogo (servico w))) escolha with
      | Some a => toca_selecao (λ r, lm_artista_id r = a_id a)
                               (InterfaceUsuario_aleatorio ativar) w evs
      | None => comandos evs = []
      end
    ∧ (CatalogoMusical_listar_artistas (catalogo (servico w)) = [] →
       evs = [Print "Nenhum artista cadastrado!"]).
Proof.
  intros Hc.
  unfold InterfaceUsuario_executar_opcao_5, InterfaceUsuario_tocar_por_artista, tentar.
  unfold obter_catalogo at 1. unfold mbind at 1. unfold M_bind at 1.
  destruct (CatalogoMusical_listar_artistas (catalogo (servico w)))
    as [|a0 resto] eqn:Hl.
  { exists [Print "Nenhum artista cadastrado!"], (com_saida [Print "Nenhum artista cadastrado!"] w).
    split; [done|]. split; [done|]. split; [done|]. split; [|done].
    unfold opcao_escolhida. destruct escolha as [e|]; [|done]. by case_bool_decide. }
  destruct (selecionar_opcao_executa (a0 :: resto) "SELECIONE UM ARTISTA" escolha w)
    as (textos & Hsel).
  unfold mbind at 1. unfold M_bind at 1. rewrite Hsel.
  destruct (opcao_escolhida (a0 :: resto) escolha) as [a|].
  - destruct (tocar_selecao_depois (λ r, lm_artista_id r = a_id a)
                (InterfaceUsuario_aleatorio ativar) w textos Hc)
      as (evs & w' & Hrun & Hcat & Hsaida & Htoca).
    assert (Hrun' : ServicoMusical_tocar_por_artista (a_id a)
                      (InterfaceUsuario_aleatorio ativar)
                      (com_saida (Print <$> textos) w) = (Retorna (), w'))
      by exact Hrun.
    exists evs, w'. split; [|done]. cbv beta iota. by rewrite Hrun'.
  - exists (Print <$> textos), (com_saida (Print <$> textos) w).
    split; [done|]. split; [done|]. split; [done|].
    split; [apply comandos_prints|done].
Qed.

(** X16: one turn of the menu with the choice [4], in a catalogue whose
    tracks all have their artist and genre.  The turn returns normally and
    leaves the catalogue as it was.  When the number typed is that of an
    entry of the menu of genres, the stored tracks of that genre, and no
    other, are played, shuffled or not as the answer to the shuffle prompt
    says; with any other answer (the entry [Cancelar], a number out of
    range, or no number) nothing is played; and with no genre stored the
    turn prints only its report. *)
Theorem menu_tocar_por_genero (ativar : string) (escolha : option Z) (w : Mundo) :
  catalogo_coerente (catalogo (servico w)) →
  ∃ evs w',
    InterfaceUsuario_executar_opcao_4 ativar escolha w = (Retorna (), w')
    ∧ catalogo (servico w') = catalogo (servico w)
    ∧ saida w' = saida w ++ evs
    ∧ match opcao_escolhida
              (CatalogoMusical_listar_generos (catalogo (servico w))) escolha with
      | Some g => toca_selecao (λ r, lm_genero_id r = g_id g)
                               (InterfaceUsuario_aleatorio ativar) w evs
      | None => comandos evs = []
      end
    ∧ (CatalogoMusical_listar_generos (catalogo (servico w)) = [] →
       evs = [Print "Nenhum gênero cadastrado!"]).
Proof.
  intros Hc.
  unfold InterfaceUsuario_executar_opcao_4, InterfaceUsuario_tocar_por_genero, tentar.
  unfold obter_catalogo at 1. unfold mbind at 1. unfold M_bind at 1.
  destruct (CatalogoMusical_listar_generos (catalogo (servico w)))
    as [|g0 resto] eqn:Hl.
  { exists [Print "Nenhum gênero cadastrado!"], (com_saida [Print "Nenhum gênero cadastrado!"] w).
    split; [done|]. split; [done|]. split; [done|]. split; [|done].
    unfold opcao_escolhida. destruct escolha as [e|]; [|done]. by case_bool_decide. }
  destruct (selecionar_opcao_executa (g0 :: resto) "SELECIONE UM GÊNERO" escolha w)
    as (textos & Hsel).
  unfold mbind at 1. unfold M_bind at 1. rewrite Hsel.
  destruct (opcao_escolhida (g0 :: resto) escolha) as [g|].
  - destruct (tocar_selecao_depois (λ r, lm_genero_id r = g_id g)
                (InterfaceUsuario_aleatorio ativar) w textos Hc)
      as (evs & w' & Hrun & Hcat & Hsaida & Htoca).
    assert (Hrun' : ServicoMusical_tocar_por_genero (g_id g)
                      (InterfaceUsuario_aleatorio ativar)
                      (com_saida (Print <$> textos) w) = (Retorna (), w'))
      by exact Hrun.
    exists evs, w'. split; [|done]. cbv beta iota. by rewrite Hrun'.
  - exists (Print <$> textos), (com_saida (Print <$> textos) w).
    split; [done|]. split; [done|]. split; [done|].
    split; [apply comandos_prints|done].
Qed.

Lemma menu_tocar_por_artista_exemplo :
  catalogo_coerente (catalogo (servico mundo_exemplo))
  ∧ ∃ evs w',
      InterfaceUsuario_executar_opcao_5 "n" (Some 1%Z) mundo_exemplo = (Retorna (), w')
      ∧ catalogo (servico w') = catalogo (servico mundo_exemplo)
      ∧ saida w' = saida mundo_exemplo ++ evs
      ∧ match opcao_escolhida
                (CatalogoMusical_listar_artistas (catalogo (servico mundo_exemplo)))
                (Some 1%Z) with
        | Some a => toca_selecao (λ r, lm_artista_id r = a_id a)
                                 (InterfaceUsuario_aleatorio "n") mundo_exemplo evs
        | None => comandos evs = []
        end
      ∧ (CatalogoMusical_listar_artistas (catalogo (servico mundo_exemplo)) = [] →
         evs = [Print "Nenhum artista cadastrado!"]).
Proof.
  exact (conj catalogo_exemplo_coerente
           (menu_tocar_por_artista "n" (Some 1%Z) mundo_exemplo
              catalogo_exemplo_coerente)).
Defined.

Lemma menu_tocar_por_genero_exemplo :
  catalogo_coerente (catalogo (servico mundo_exemplo))
  ∧ ∃ evs w',
      InterfaceUsuario_executar_opcao_4 "Sim" (Some 1%Z) mundo_exemplo = (Retorna (), w')
      ∧ catalogo (servico w') = catalogo (servico mundo_exemplo)
      ∧ saida w' = saida mundo_exemplo ++ evs
      ∧ match opcao_escolhida
                (CatalogoMusical_listar_generos (catalogo (servico mundo_exemplo)))
                (Some 1%Z) with
        | Some g => toca_selecao (λ r, lm_genero_id r = g_id g)
                                 (InterfaceUsuario_aleatorio "Sim") mundo_exemplo evs
        | None => comandos evs = []
        end
      ∧ (CatalogoMusical_listar_generos (catalogo (servico mundo_exemplo)) = [] →
         evs = [Print "Nenhum gênero cadastrado!"]).
Proof.
  exact (conj catalogo_exemplo_coerente
           (menu_tocar_por_genero "Sim" (Some 1%Z) mundo_exemplo
              catalogo_exemplo_coerente)).
Defined.

(** X17: [InterfaceUsuario.aleatorio] returns [True] exactly when the
    answer has the letter [s] or [S] somewhere in it; the empty answer, for
    which the prompt [[S/n]] suggests yes, gives [False]. *)
Theorem aleatorio_correto (ativar : string) :
  (InterfaceUsuario_aleatorio ativar = true
   ↔ ∃ pre c suf, ativar = pre +:+ String c suf ∧ (c = "s" ∨ c = "S")%char)
  ∧ InterfaceUsuario_aleatorio "" = false.
Proof.
  split; [|done]. unfold InterfaceUsuario_aleatorio.
  change "s" with (minusculas "s") at 1. rewrite contem_sem_caixa.
  unfold ocorre_sem_caixa. split.
  - intros (pre & meio & suf & -> & Hm). exists pre.
    destruct meio as [|c [|d meio]]; [done| |done].
    exists c, suf. split; [done|]. injection Hm as Hc.
    destruct c as [[] [] [] [] [] [] [] []]; try done; by (left + right).
  - intros (pre & c & suf & -> & Hc). exists pre, (String c ""), suf.
    split; [done|]. by destruct Hc as [-> | ->].
Qed.

(** ** Adding a track from the menu *)

Lemma bind_print {B} (texto : string) (k : M B) (w : Mundo) :
  (print texto;; k) w = k (com_saida [Print texto] w).
Proof. done. Qed.

Lemma bind_obter_catalogo {B} (k : CatalogoMusical → M B) (w : Mundo) :
  (obter_catalogo ≫= k) w = k (catalogo (servico w)) w.
Proof. done. Qed.

Lemma bind_so_imprime {A B} (c : M A) (k : A → M B) (x : A)
    (textos : list string) (w : Mundo) :
  c w = (Retorna x, com_saida (Print <$> textos) w) →
  (c ≫= k) w = k x (com_saida (Print <$> textos) w).
Proof. intros Hc. unfold mbind, M_bind. by rewrite Hc. Qed.

(** The name of the artist or of the genre: that of the entry chosen in
    the menu, or the name typed when no entry was chosen or the menu was
    not shown. *)
Lemma escolher_nome {A} `{Str A} (nome : A → string) (opcoes : list A)
    (titulo : string) (escolha : option Z) (digitado : string) (w : Mundo) :
  ∃ textos,
    (if opcoes is [] then mret digitado
     else obj ← InterfaceUsuario_selecionar_opcao opcoes titulo escolha;
          mret (if obj is Some a then nome a else digitado)) w
    = (Retorna (default digitado (nome <$> opcao_escolhida opcoes escolha)),
       com_saida (Print <$> textos) w).
Proof.
  destruct opcoes as [|o opcoes].
  - exists []. simpl. rewrite com_saida_nil.
    unfold opcao_escolhida. destruct escolha as [e|]; [|done].
    by case_bool_decide.
  - destruct (selecionar_opcao_executa (o :: opcoes) titulo escolha w)
      as (textos & Hsel).
    exists textos. rewrite (bind_so_imprime _ _ _ _ _ Hsel).
    by destruct (opcao_escolhida (o :: opcoes) escolha).
Qed.

Lemma catalogo_adicionar_url_repetida (titulo url artista genero : string)
    (c : CatalogoMusical) :
  url ∈ urls (musicas (db c)) →
  m_id (CatalogoMusical_adicionar_musica titulo url artista genero c).1 = None
  ∧ musicas (db (CatalogoMusical_adicionar_musica titulo url artista genero c).2)
    = musicas (db c).
Proof.
  intros Hu. unfold CatalogoMusical_adicionar_musica.
  rewrite adicionar_artista_tabela, adicionar_genero_tabela.
  cbn [fst snd com_artistas com_generos artistas generos musicas conexao].
  destruct (obter_ou_criar artista _).1, (obter_ou_criar genero _).1;
    cbn [adicionar_musica_ids]; [|done..].
  by rewrite adicionar_musica_url_repetida.
Qed.

Lemma catalogo_adicionar_titulo (titulo url artista genero : string)
    (c : CatalogoMusical) :
  m_titulo (CatalogoMusical_adicionar_musica titulo url artista genero c).1 = titulo.
Proof.
  unfold CatalogoMusical_adicionar_musica.
  destruct (adicionar_artista artista (db c)) as [ia bd1].
  destruct (adicionar_genero genero bd1) as [ig bd2].
  by destruct (adicionar_musica_ids ia titulo url ig bd2).
Qed.

(** X18: [InterfaceUsuario.adicionar_musica] returns normally, only prints,
    and leaves the player and the list objects as they were.  The artist
    (genre) is the entry chosen in the menu, or the name typed when none
    was.  Unless the answer to the confirmation is [s] or [S], the catalogue
    is untouched.  When it is, the catalogue's [adicionar_musica] is called
    with the title, url, artist and genre, and the last line printed reports
    success; this also when the url was already stored, where no track is
    added. *)
Theorem interface_adicionar_musica (r : Respostas) (w : Mundo) :
  let c := catalogo (servico w) in
  let artista :=
    default (r_artista r)
      (a_nome <$> opcao_escolhida (CatalogoMusical_listar_artistas c)
                                  (r_escolha_artista r)) in
  let genero :=
    default (r_genero r)
      (g_nome <$> opcao_escolhida (CatalogoMusical_listar_generos c)
                                  (r_escolha_genero r)) in
  ∃ textos w',
    InterfaceUsuario_adicionar_musica r w = (Retorna (), w')
    ∧ saida w' = saida w ++ (Print <$> textos)
    ∧ player (servico w') = player (servico w)
    ∧ objetos w' = objetos w
    ∧ (minusculas (r_confirmar r) ≠ "s" → catalogo (servico w') = c)
    ∧ (minusculas (r_confirmar r) = "s" →
       catalogo (servico w')
       = (CatalogoMusical_adicionar_musica (r_titulo r) (r_url r) artista genero c).2
       ∧ last textos
         = Some ("✅ Música '" +:+ r_titulo r +:+ "' adicionada com sucesso!")
       ∧ (r_url r ∈ urls (musicas (db c)) →
          musicas (db (catalogo (servico w'))) = musicas (db c))).
Proof.
  intros c artista genero. unfold InterfaceUsuario_adicionar_musica.
  rewrite !bind_print, bind_obter_catalogo. cbv beta.
  set (w1 := com_saida _ (com_saida _ w)).
  destruct (escolher_nome a_nome (CatalogoMusical_listar_artistas c)
              "Selecione o artista ou adicione novo" (r_escolha_artista r)
              (r_artista r) w1) as (t1 & H1).
  rewrite (bind_so_imprime _ _ _ _ _ H1). fold artista.
  rewrite bind_obter_catalogo. cbv beta.
  set (w2 := com_saida _ w1).
  destruct (escolher_nome g_nome (CatalogoMusical_listar_generos c)
              "Selecione o gênero ou adicione novo" (r_escolha_genero r)
              (r_genero r) w2) as (t2 & H2).
  rewrite (bind_so_imprime _ _ _ _ _ H2). fold genero.
  rewrite !bind_print.
  set (w3 := com_saida _ (com_saida _ (com_saida _ (com_saida _ _)))).
  set (antes := [nl +:+ "➕ ADICIONAR MÚSICA"; tracos 30] ++ t1 ++ t2
                ++ [nl +:+ "📋 RESUMO:"; "Título: " +:+ r_titulo r;
                    "Artista: " +:+ artista; "Gênero: " +:+ genero]).
  assert (Hw3 : w3 = com_saida (Print <$> antes) w).
  { unfold w3, w2, w1, antes. by rewrite !com_saida_app, !fmap_app. }
  case_decide as Hconf.
  - set (res := CatalogoMusical_adicionar_musica (r_titulo r) (r_url r) artista genero c).
    exists (antes ++ ["✅ Música '" +:+ r_titulo r +:+ "' adicionada com sucesso!"]).
    eexists. split.
    { unfold ServicoMusical_adicionar_musica. rewrite Hw3. reflexivity. }
    cbn [saida servico catalogo player objetos com_saida gravar_catalogo fst snd].
    rewrite catalogo_adicionar_titulo.
    split; [by rewrite fmap_app, (assoc_L (++))|].
    split; [done|]. split; [done|]. split; [done|]. intros _.
    split; [done|]. split; [by rewrite last_snoc|].
    apply catalogo_adicionar_url_repetida.
  - exists antes, w3. rewrite Hw3. split; [done|]. by repeat split.
Qed.

(** * Catalogues built by the program *)

Lemma catalogo_adicionar_urls (titulo url artista genero : string)
    (c : CatalogoMusical) (v : string) :
  catalogo_coerente c →
  v ∈ urls (musicas (db (CatalogoMusical_adicionar_musica titulo url artista genero c).2))
  ↔ v ∈ urls (musicas (db c)) ∨ v = url.
Proof.
  intros [Hbd Hrefs].
  destruct (artista_e_genero artista genero (db c) Hbd Hrefs)
    as (ia & ig & bd1 & bd2 & Ha & Hg & Hbd2 & Hrefs2 & Hm & Hra & Hrg & Hj).
  unfold CatalogoMusical_adicionar_musica. rewrite Ha, Hg.
  cbn [adicionar_musica_ids]. unfold adicionar_musica, insert_musica.
  rewrite Hm. case_decide as Hu.
  - cbn [fst snd db]. rewrite Hm. split; [by left|]. by intros [?| ->].
  - assert (Hpais : pais_existem bd2 ia ig = true).
    { unfold pais_existem. apply andb_true_iff. split; apply bool_decide_eq_true.
      - by apply (list_elem_of_fmap_2 ln_id) in Hra.
      - by apply (list_elem_of_fmap_2 ln_id) in Hrg. }
    rewrite Hpais, andb_false_r. cbn [fst snd db com_musicas musicas].
    unfold urls. cbn [linhas]. rewrite fmap_app, elem_of_app. simpl.
    by rewrite list_elem_of_singleton.
Qed.

Lemma catalogo_de_snoc (adicoes : list (string * string * string * string))
    (titulo url artista genero : string) :
  catalogo_de (adicoes ++ [(titulo, url, artista, genero)])
  = (CatalogoMusical_adicionar_musica titulo url artista genero
       (catalogo_de adicoes)).2.
Proof. unfold catalogo_de. by rewrite foldl_app. Qed.

Lemma catalogo_de_coerente (adicoes : list (string * string * string * string)) :
  catalogo_coerente (catalogo_de adicoes).
Proof.
  induction adicoes as [|[[[t u] a] g] adicoes IH] using rev_ind.
  - split; [apply integro_banco_novo|]. intros m Hm.
    by apply not_elem_of_nil in Hm.
  - rewrite catalogo_de_snoc. by apply catalogo_adicionar_coerente.
Qed.

(** X19: whatever tracks a program adds through the catalogue, starting
    from a new database, every track stored has its artist and its genre;
    the urls stored are exactly the urls given; and the listing of all
    tracks shows every track stored. *)
Theorem catalogo_de_correto (adicoes : list (string * string * string * string)) :
  catalogo_coerente (catalogo_de adicoes)
  ∧ (∀ u, u ∈ urls (musicas (db (catalogo_de adicoes)))
          ↔ u ∈ (λ x, x.1.1.2) <$> adicoes)
  ∧ m_url <$> CatalogoMusical_buscar_musicas (catalogo_de adicoes)
    ≡ₚ urls (musicas (db (catalogo_de adicoes))).
Proof.
  split; [apply catalogo_de_coerente|]. split.
  - induction adicoes as [|[[[t u'] a] g] adicoes IH] using rev_ind; intros u.
    + split; intros H; by apply not_elem_of_nil in H.
    + rewrite catalogo_de_snoc, catalogo_adicionar_urls
        by apply catalogo_de_coerente.
      rewrite fmap_app, elem_of_app, IH. simpl.
      by rewrite list_elem_of_singleton.
  - destruct (catalogo_de_coerente adicoes) as [Hbd Hrefs].
    unfold CatalogoMusical_buscar_musicas, obter_todas_musicas, urls.
    rewrite (proj1 (order_by_correto ordem_artista_titulo _)).
    rewrite <-(referencias_validas_filter _ Hrefs).
    rewrite <-(juncao_linhas (db (catalogo_de adicoes))) by apply Hbd.
    by rewrite <-!list_fmap_compose.
Qed.
